(** * The data-loading layer of the project-management app

    A shallow embedding of the client-side loaders described in the lesson
    notes: the projects store ([getProjects], [getProject], [validateCache],
    [updateProject] of [src/stores/loaders/projects.ts]) and the collaborators
    composable ([getProfilesByIds], [getGroupedCollabs] of
    [src/composables/collabs.ts]).

    The code is asynchronous JavaScript.  It is modelled on one event loop:
    - the store is a record of the refs and memoize caches the code mutates;
    - every [await]/[.then] is a suspension point: the rest of the function
      is a task that is queued when the awaited promise settles;
    - the backend is the environment: it settles a request in flight with a
      response of its choice, at a time of its choice.  *)

From Stdlib Require Import Ascii String.
From stdpp Require Import base option list strings pretty gmap.

Open Scope string_scope.
Open Scope list_scope.
Open Scope nat_scope.

(** ** Fetched payloads

    The payloads are JSON: what the backend returns and what [JSON.stringify]
    serialises.  An object keeps its properties in insertion order, as
    [JSON.stringify] and the rest pattern [{a, ...rest}] see them.  Numbers
    are the integers the schema uses (identifiers, status codes). *)

#[warnings="-register-all"]
Inductive Json :=
| JNull
| JBool (b : bool)
| JNum (n : Z)
| JStr (s : string)
| JArr (xs : list Json)
| JObj (fs : list (string * Json)).

(** JavaScript truthiness, for [if (data)], [if (error)], [if (!ref.value)]:
    [null], [false], [0] and the empty string are falsy; every array and every
    object is truthy, the empty ones too. *)
Definition truthy (j : Json) : bool :=
  match j with
  | JNull => false
  | JBool b => b
  | JNum n => negb (n =? 0)%Z
  | JStr s => negb (String.eqb s EmptyString)
  | JArr _ => true
  | JObj _ => true
  end.

(** [a ?? b] *)
Definition nullish_or (a : option Json) (b : Json) : Json :=
  match a with
  | None => b
  | Some JNull => b
  | Some v => v
  end.

Module JSON.

Local Open Scope string_scope.

Definition hex_digit (n : N) : ascii :=
  match n with
  | 0 => "0" | 1 => "1" | 2 => "2" | 3 => "3" | 4 => "4" | 5 => "5"
  | 6 => "6" | 7 => "7" | 8 => "8" | 9 => "9" | 10 => "a" | 11 => "b"
  | 12 => "c" | 13 => "d" | 14 => "e" | _ => "f"
  end%N%char.

(** One character of a string literal: the quote and the backslash are
    escaped, the control characters are written with their short escape or
    as [\u00XX]. *)
Definition escape_char (c : ascii) : string :=
  let n := N_of_ascii c in
  if (n =? 34)%N then String "\" (String c EmptyString)
  else if (n =? 92)%N then "\\"
  else if (n =? 8)%N then "\b"
  else if (n =? 9)%N then "\t"
  else if (n =? 10)%N then "\n"
  else if (n =? 12)%N then "\f"
  else if (n =? 13)%N then "\r"
  else if (n <? 32)%N then
    "\u00" ++ String (hex_digit (n / 16)) (String (hex_digit (n mod 16)) EmptyString)
  else String c EmptyString.

Fixpoint escape (s : string) : string :=
  match s with
  | EmptyString => EmptyString
  | String c s' => escape_char c ++ escape s'
  end.

(** The double quote, character 34. *)
Definition dquote : ascii := ascii_of_nat 34.

Definition quote (s : string) : string :=
  String dquote (escape s ++ String dquote EmptyString).

Fixpoint join (ss : list string) : string :=
  match ss with
  | [] => EmptyString
  | [s] => s
  | s :: ss' => s ++ "," ++ join ss'
  end.

(** [JSON.stringify(value)] *)
Fixpoint stringify (j : Json) : string :=
  match j with
  | JNull => "null"
  | JBool true => "true"
  | JBool false => "false"
  | JNum n => pretty n
  | JStr s => quote s
  | JArr xs => "[" ++ join (map stringify xs) ++ "]"
  | JObj fs =>
      "{" ++ join (map (λ kv, quote (fst kv) ++ ":" ++ stringify (snd kv)) fs) ++ "}"
  end.

End JSON.

(** Test strings are written with apostrophes where JSON has double quotes. *)
Fixpoint replace_quotes (s : string) : string :=
  match s with
  | EmptyString => EmptyString
  | String c s' =>
      String (if Ascii.eqb c "'" then JSON.dquote else c) (replace_quotes s')
  end.

(** Own enumerable properties, as object destructuring and property access
    see them: the fields of an object, the indexed elements of an array, the
    indexed characters of a string; numbers, booleans and [null] have none. *)
Definition own_props (j : Json) : list (string * Json) :=
  match j with
  | JObj fs => fs
  | JArr xs => imap (λ i x, (pretty i, x)) xs
  | JStr s => imap (λ i c, (pretty i, JStr (String c EmptyString))) (list_ascii_of_string s)
  | _ => []
  end.

(** [value.name]; [None] is [undefined]. *)
Definition prop (name : string) (j : Json) : option Json :=
  (λ ikv, snd (snd ikv)) <$> list_find (λ kv, fst kv = name) (own_props j).

(** [const {n1, n2, ...rest} = value]: the properties of [value] that are
    not named, in their order. *)
Definition rest_props (names : list string) (j : Json) : list (string * Json) :=
  filter (λ kv, fst kv ∉ names) (own_props j).

(** ** The backend

    [supaQueries.ts] is a thin layer over the hosted backend; the loaders see
    a query only as an asynchronous operation that settles with
    [{data, error, status}]. *)

Inductive Query :=
| projectsQuery
| projectQuery (slug : string)
| groupedProfilesQuery (userIds : list string)
| updateProjectQuery (updatedProject : list (string * Json)) (id : option Json).

Record Response := { data : Json; error : Json; status : Z }.

(** [typeof query === 'function' ? query(key) : query] *)
Inductive QuerySource :=
| QueryFn (f : string → Query)
| QueryBuilder (q : Query).

Definition finalQuery (query : QuerySource) (key : string) : Query :=
  match query with
  | QueryFn f => f key
  | QueryBuilder q => q
  end.

(** An element of [Projects | TasksWithProjects], with the two fields
    [getGroupedCollabs] reads. *)
Record Item := { item_id : Z; item_collaborators : list string }.

(** The property key of [groupedCollabs.value[item.id]]: the number as a string. *)
Definition item_key (it : Item) : string := pretty (item_id it).

(** [item.collaborators.length], as the condition of the filter. *)
Definition has_collaborators (item : Item) : Prop :=
  length (item_collaborators item) ≠ 0.

#[global] Instance has_collaborators_dec item : Decision (has_collaborators item).
Proof. unfold has_collaborators. apply _. Defined.

(** The two refs of the projects store and the two memoized loaders, as
    [validateCache] receives them. *)
Inductive Ref := projects_ref | project_ref.
Inductive LoaderFn := loadProjects_fn | loadProject_fn.

#[global] Instance Ref_eq_dec : EqDecision Ref.
Proof. solve_decision. Defined.
#[global] Instance LoaderFn_eq_dec : EqDecision LoaderFn.
Proof. solve_decision. Defined.

(** ** Tasks

    The rest of an asynchronous function after a suspension point, together
    with the value it is resumed with.  A constructor applied to all but its
    last argument is the continuation that waits for that value. *)
Inductive Task :=
| T_loader (p : nat) (r : Response)
    (* [async (slug) => await projectQuery(slug)]: returns the response,
       which fulfils the loader's promise [p] *)
| T_getProjects (r : Response)
| T_getProject (slug : string) (r : Response)
| T_validateCache (ref : Ref) (key : string) (loaderFn : LoaderFn) (r : Response)
    (* the callback of [finalQuery.then] *)
| T_getProfilesByIds (batch index : nat) (r : Response)
    (* the call whose promise is element [index] of the [Promise.all] of [batch] *)
| T_all (batch index : nat) (v : Json)
    (* [Promise.all]: element [index] has fulfilled with [v] *)
| T_getGroupedCollabs (filteredItems : list Item) (results : list Json)
| T_updateProject (r : Response).

(** ** The world: store, composable state and event loop *)
Record World := {
  (* stores/loaders/projects.ts *)
  projects : Json;                       (* [ref<Projects | null>(null)] *)
  project : Json;                        (* [ref<Project | null>(null)] *)
  loadProjects_cache : gmap string nat;  (* key ↦ cached promise *)
  loadProject_cache : gmap string nat;
  (* the error store: the calls of [setError] *)
  errors : list (Json * Z);
  (* composables/collabs.ts *)
  groupedCollabs : gmap string Json;     (* [ref<GroupedCollabs>({})] *)
  (* the event loop *)
  next_id : nat;                         (* promises are numbered as they are created *)
  query_log : list Query;                (* every invocation of a query, in order *)
  inflight : gmap nat (Query * (Response → Task));
                                         (* requests the backend has not answered, each with
                                            the continuation awaiting it *)
  settled : gmap nat Response;           (* fulfilled promises and their values *)
  awaiting : list (nat * (Response → Task));
                                         (* continuations awaiting a pending loader promise *)
  batches : gmap nat (list Item * list (option Json));
                                         (* [Promise.all] in progress: the caller's filtered
                                            items and the elements fulfilled so far *)
  queue : list Task                      (* the microtask queue *)
}.

Definition init : World :=
  {| projects := JNull; project := JNull;
     loadProjects_cache := ∅; loadProject_cache := ∅;
     errors := []; groupedCollabs := ∅;
     next_id := 0; query_log := []; inflight := ∅; settled := ∅;
     awaiting := []; batches := ∅; queue := [] |}.

Definition set_projects v (w : World) : World :=
  {| projects := v; project := project w;
     loadProjects_cache := loadProjects_cache w; loadProject_cache := loadProject_cache w;
     errors := errors w; groupedCollabs := groupedCollabs w;
     next_id := next_id w; query_log := query_log w; inflight := inflight w;
     settled := settled w; awaiting := awaiting w; batches := batches w; queue := queue w |}.
Definition set_project v (w : World) : World :=
  {| projects := projects w; project := v;
     loadProjects_cache := loadProjects_cache w; loadProject_cache := loadProject_cache w;
     errors := errors w; groupedCollabs := groupedCollabs w;
     next_id := next_id w; query_log := query_log w; inflight := inflight w;
     settled := settled w; awaiting := awaiting w; batches := batches w; queue := queue w |}.
Definition set_loadProjects_cache v (w : World) : World :=
  {| projects := projects w; project := project w;
     loadProjects_cache := v; loadProject_cache := loadProject_cache w;
     errors := errors w; groupedCollabs := groupedCollabs w;
     next_id := next_id w; query_log := query_log w; inflight := inflight w;
     settled := settled w; awaiting := awaiting w; batches := batches w; queue := queue w |}.
Definition set_loadProject_cache v (w : World) : World :=
  {| projects := projects w; project := project w;
     loadProjects_cache := loadProjects_cache w; loadProject_cache := v;
     errors := errors w; groupedCollabs := groupedCollabs w;
     next_id := next_id w; query_log := query_log w; inflight := inflight w;
     settled := settled w; awaiting := awaiting w; batches := batches w; queue := queue w |}.
Definition set_errors v (w : World) : World :=
  {| projects := projects w; project := project w;
     loadProjects_cache := loadProjects_cache w; loadProject_cache := loadProject_cache w;
     errors := v; groupedCollabs := groupedCollabs w;
     next_id := next_id w; query_log := query_log w; inflight := inflight w;
     settled := settled w; awaiting := awaiting w; batches := batches w; queue := queue w |}.
Definition set_groupedCollabs v (w : World) : World :=
  {| projects := projects w; project := project w;
     loadProjects_cache := loadProjects_cache w; loadProject_cache := loadProject_cache w;
     errors := errors w; groupedCollabs := v;
     next_id := next_id w; query_log := query_log w; inflight := inflight w;
     settled := settled w; awaiting := awaiting w; batches := batches w; queue := queue w |}.
Definition set_next_id v (w : World) : World :=
  {| projects := projects w; project := project w;
     loadProjects_cache := loadProjects_cache w; loadProject_cache := loadProject_cache w;
     errors := errors w; groupedCollabs := groupedCollabs w;
     next_id := v; query_log := query_log w; inflight := inflight w;
     settled := settled w; awaiting := awaiting w; batches := batches w; queue := queue w |}.
Definition set_query_log v (w : World) : World :=
  {| projects := projects w; project := project w;
     loadProjects_cache := loadProjects_cache w; loadProject_cache := loadProject_cache w;
     errors := errors w; groupedCollabs := groupedCollabs w;
     next_id := next_id w; query_log := v; inflight := inflight w;
     settled := settled w; awaiting := awaiting w; batches := batches w; queue := queue w |}.
Definition set_inflight v (w : World) : World :=
  {| projects := projects w; project := project w;
     loadProjects_cache := loadProjects_cache w; loadProject_cache := loadProject_cache w;
     errors := errors w; groupedCollabs := groupedCollabs w;
     next_id := next_id w; query_log := query_log w; inflight := v;
     settled := settled w; awaiting := awaiting w; batches := batches w; queue := queue w |}.
Definition set_settled v (w : World) : World :=
  {| projects := projects w; project := project w;
     loadProjects_cache := loadProjects_cache w; loadProject_cache := loadProject_cache w;
     errors := errors w; groupedCollabs := groupedCollabs w;
     next_id := next_id w; query_log := query_log w; inflight := inflight w;
     settled := v; awaiting := awaiting w; batches := batches w; queue := queue w |}.
Definition set_awaiting v (w : World) : World :=
  {| projects := projects w; project := project w;
     loadProjects_cache := loadProjects_cache w; loadProject_cache := loadProject_cache w;
     errors := errors w; groupedCollabs := groupedCollabs w;
     next_id := next_id w; query_log := query_log w; inflight := inflight w;
     settled := settled w; awaiting := v; batches := batches w; queue := queue w |}.
Definition set_batches v (w : World) : World :=
  {| projects := projects w; project := project w;
     loadProjects_cache := loadProjects_cache w; loadProject_cache := loadProject_cache w;
     errors := errors w; groupedCollabs := groupedCollabs w;
     next_id := next_id w; query_log := query_log w; inflight := inflight w;
     settled := settled w; awaiting := awaiting w; batches := v; queue := queue w |}.
Definition set_queue v (w : World) : World :=
  {| projects := projects w; project := project w;
     loadProjects_cache := loadProjects_cache w; loadProject_cache := loadProject_cache w;
     errors := errors w; groupedCollabs := groupedCollabs w;
     next_id := next_id w; query_log := query_log w; inflight := inflight w;
     settled := settled w; awaiting := awaiting w; batches := batches w; queue := v |}.

(** ** Promises and the microtask queue *)

Definition push (t : Task) (w : World) : World := set_queue (queue w ++ [t]) w.

(** Invoking a query and awaiting it (or calling [.then] on it): the request
    goes to the backend; [k] is resumed with the response. *)
Definition request (q : Query) (k : Response → Task) (w : World) : World :=
  let r := next_id w in
  set_inflight (<[r := (q, k)]> (inflight w))
    (set_query_log (query_log w ++ [q])
      (set_next_id (S r) w)).

(** [await p] on a loader promise: a fulfilled promise resumes the caller in
    a later microtask, a pending one when it is fulfilled. *)
Definition await (p : nat) (k : Response → Task) (w : World) : World :=
  match settled w !! p with
  | Some r => push (k r) w
  | None => set_awaiting (awaiting w ++ [(p, k)]) w
  end.

(** Promise [p] is fulfilled with [r]: the continuations awaiting it are
    queued in the order they were registered. *)
Definition fulfil (p : nat) (r : Response) (w : World) : World :=
  let resumed := filter (λ pk, fst pk = p) (awaiting w) in
  set_queue (queue w ++ map (λ pk, snd pk r) resumed)
    (set_awaiting (filter (λ pk, fst pk ≠ p) (awaiting w))
      (set_settled (<[p := r]> (settled w)) w)).

(** The backend answers request [p] with [r]. A request is answered once. *)
Definition settle (p : nat) (r : Response) (w : World) : World :=
  match inflight w !! p with
  | Some (_, k) =>
      push (k r)
        (set_settled (<[p := r]> (settled w))
          (set_inflight (delete p (inflight w)) w))
  | None => w
  end.

(** ** The memoized loaders *)

Definition cache_of (fn : LoaderFn) (w : World) : gmap string nat :=
  match fn with
  | loadProjects_fn => loadProjects_cache w
  | loadProject_fn => loadProject_cache w
  end.

Definition set_cache_of (fn : LoaderFn) (c : gmap string nat) (w : World) : World :=
  match fn with
  | loadProjects_fn => set_loadProjects_cache c w
  | loadProject_fn => set_loadProject_cache c w
  end.

(** Modelled from the spec: [useMemoize] comes from the @vueuse/core package
    and is not among the sources.  After §4.1 (KeyedMemoAsync): the first call
    with a new key invokes the underlying asynchronous function, stores the
    promise it returns and returns it; a call with a cached key returns the
    stored promise, pending or settled, without invoking anything; [delete]
    removes the entry of that key only. *)
Definition useMemoize (fn : LoaderFn) (resolver : string → World → nat * World)
    (key : string) (w : World) : nat * World :=
  match cache_of fn w !! key with
  | Some p => (p, w)
  | None =>
      let '(p, w') := resolver key w in
      (p, set_cache_of fn (<[key := p]> (cache_of fn w')) w')
  end.

(** [loaderFn.delete(key)] *)
Definition memo_delete (fn : LoaderFn) (key : string) (w : World) : World :=
  set_cache_of fn (delete key (cache_of fn w)) w.

(** [async (...) => await query]: the call creates its promise [p], invokes
    the query and suspends; [T_loader p] fulfils [p] with the response. *)
Definition async_await (q : Query) (w : World) : nat * World :=
  let p := next_id w in
  (p, request q (T_loader p) (set_next_id (S p) w)).

(** [useMemoize(async (slug: string) => await projectQuery(slug))] *)
Definition loadProject : string → World → nat * World :=
  useMemoize loadProject_fn (λ slug, async_await (projectQuery slug)).

(** [useMemoize(async (key: string) => await projectsQuery)] *)
Definition loadProjects : string → World → nat * World :=
  useMemoize loadProjects_fn (λ key, async_await projectsQuery).

(** ** stores/loaders/projects.ts *)

Definition ref_value (ref : Ref) (w : World) : Json :=
  match ref with
  | projects_ref => projects w
  | project_ref => project w
  end.

Definition ref_assign (ref : Ref) (v : Json) (w : World) : World :=
  match ref with
  | projects_ref => set_projects v w
  | project_ref => set_project v w
  end.

(** [useErrorStore().setError({ error, customCode: status })] *)
Definition setError (err : Json) (customCode : Z) (w : World) : World :=
  set_errors (errors w ++ [(err, customCode)]) w.

(** The callback of [finalQuery.then(({ data, error }) => ...)]. *)
Definition validateCache_then (ref : Ref) (key : string) (loaderFn : LoaderFn)
    (r : Response) (w : World) : World :=
  if decide (JSON.stringify (ref_value ref w) = JSON.stringify (data r)) then w
  else
    let w1 := memo_delete loaderFn key w in
    if negb (truthy (error r)) && truthy (data r)
    then ref_assign ref (data r) w1
    else w1.

Definition validateCache (ref : Ref) (query : QuerySource) (key : string)
    (loaderFn : LoaderFn) (w : World) : World :=
  if negb (truthy (ref_value ref w)) then w
  else request (finalQuery query key) (T_validateCache ref key loaderFn) w.

(** [getProjects] after [await loadProjects('projects')]. *)
Definition getProjects_resume (r : Response) (w : World) : World :=
  let w1 := if truthy (error r) then setError (error r) (status r) w else w in
  let w2 := if truthy (data r) then set_projects (data r) w1 else w1 in
  validateCache projects_ref (QueryBuilder projectsQuery) "projects" loadProjects_fn w2.

(** [getProjects] up to its await. *)
Definition getProjects (w : World) : World :=
  let w1 := set_projects JNull w in
  let '(p, w2) := loadProjects "projects" w1 in
  await p T_getProjects w2.

(** [getProject] after [await loadProject(slug)]. *)
Definition getProject_resume (slug : string) (r : Response) (w : World) : World :=
  let w1 := if truthy (error r) then setError (error r) (status r) w else w in
  let w2 := if truthy (data r) then set_project (data r) w1 else w1 in
  validateCache project_ref (QueryFn projectQuery) slug loadProject_fn w2.

(** [getProject] up to its await. *)
Definition getProject (slug : string) (w : World) : World :=
  let w1 := set_project JNull w in
  let '(p, w2) := loadProject slug w1 in
  await p (T_getProject slug) w2.

(** [updateProject]: the guard, the destructuring
    [const {tasks, id, ...projectProperties} = project.value] and the call
    [updateProjectQuery(projectProperties, project.value.id)], up to the await.
    Nothing follows the await. *)
Definition updateProject (w : World) : World :=
  if negb (truthy (project w)) then w
  else
    let projectProperties := rest_props ["tasks"; "id"] (project w) in
    request (updateProjectQuery projectProperties (prop "id" (project w))) T_updateProject w.

(** ** composables/collabs.ts *)

(** [getProfilesByIds] after its await: [if (error || !data) return []; return data]. *)
Definition getProfilesByIds_return (r : Response) : Json :=
  if truthy (error r) || negb (truthy (data r)) then JArr [] else data r.

(** [getProfilesByIds(userIds)] up to its await.  [batch] and [index] name
    the promise of the call: element [index] of the [Promise.all] of [batch]. *)
Definition getProfilesByIds (batch index : nat) (userIds : list string) (w : World) : World :=
  request (groupedProfilesQuery userIds) (T_getProfilesByIds batch index) w.

(** [filteredItems.map((item) => getProfilesByIds(item.collaborators))] *)
Fixpoint map_getProfilesByIds (batch index : nat) (items : list Item) (w : World) : World :=
  match items with
  | [] => w
  | item :: items' =>
      map_getProfilesByIds batch (S index) items'
        (getProfilesByIds batch index (item_collaborators item) w)
  end.

(** [filteredItems.forEach((item, index) =>
      groupedCollabs.value[item.id] = results[index] ?? [])] *)
Fixpoint forEach_store (items : list Item) (index : nat) (results : list Json)
    (m : gmap string Json) : gmap string Json :=
  match items with
  | [] => m
  | item :: items' =>
      forEach_store items' (S index) results
        (<[item_key item := nullish_or (results !! index) (JArr [])]> m)
  end.

(** [getGroupedCollabs] after [await Promise.all(promises)]. *)
Definition getGroupedCollabs_resume (filteredItems : list Item) (results : list Json)
    (w : World) : World :=
  set_groupedCollabs (forEach_store filteredItems 0 results (groupedCollabs w)) w.

(** [Promise.all]: element [index] of [batch] has fulfilled with [v].  When
    no element is missing the aggregate fulfils with the values in the order
    of the promises, and the caller awaiting it is resumed. *)
Definition all_element (batch index : nat) (v : Json) (w : World) : World :=
  match batches w !! batch with
  | None => w
  | Some (filteredItems, values) =>
      let values' := <[index := Some v]> values in
      let w1 := set_batches (<[batch := (filteredItems, values')]> (batches w)) w in
      match mapM id values' with
      | Some results => push (T_getGroupedCollabs filteredItems results) w1
      | None => w1
      end
  end.

(** [getGroupedCollabs] up to its await.  [Promise.all] of no promise is
    fulfilled at once, and the caller is resumed in a later microtask. *)
Definition getGroupedCollabs (items : list Item) (w : World) : World :=
  let filteredItems := filter has_collaborators items in
  let batch := next_id w in
  let w1 := map_getProfilesByIds batch 0 filteredItems (set_next_id (S batch) w) in
  let w2 :=
    set_batches (<[batch := (filteredItems, replicate (length filteredItems) None)]> (batches w1)) w1 in
  match filteredItems with
  | [] => push (T_getGroupedCollabs [] []) w2
  | _ => w2
  end.

(** ** Running the loop *)

Definition exec (t : Task) (w : World) : World :=
  match t with
  | T_loader p r => fulfil p r w
  | T_getProjects r => getProjects_resume r w
  | T_getProject slug r => getProject_resume slug r w
  | T_validateCache ref key loaderFn r => validateCache_then ref key loaderFn r w
  | T_getProfilesByIds batch index r => push (T_all batch index (getProfilesByIds_return r)) w
  | T_all batch index v => all_element batch index v w
  | T_getGroupedCollabs filteredItems results => getGroupedCollabs_resume filteredItems results w
  | T_updateProject r => w
  end.

(** What happens on the loop: the UI calls an operation, the backend answers
    a request, or the next microtask runs. *)
Inductive Event :=
| Call_getProjects
| Call_getProject (slug : string)
| Call_updateProject
| Call_getGroupedCollabs (items : list Item)
| Settle (p : nat) (r : Response)
| Tick.

Definition step (w : World) (e : Event) : World :=
  match e with
  | Call_getProjects => getProjects w
  | Call_getProject slug => getProject slug w
  | Call_updateProject => updateProject w
  | Call_getGroupedCollabs items => getGroupedCollabs items w
  | Settle p r => settle p r w
  | Tick =>
      match queue w with
      | [] => w
      | t :: q => exec t (set_queue q w)
      end
  end.

Definition run (w : World) (es : list Event) : World := foldl step w es.

(** ** Vocabulary of the statements *)

(** The memoized loader behind a [loaderFn] and the query it wraps. *)
Definition loader (fn : LoaderFn) : string → World → nat * World :=
  match fn with
  | loadProjects_fn => loadProjects
  | loadProject_fn => loadProject
  end.

Definition underlying (fn : LoaderFn) (key : string) : Query :=
  match fn with
  | loadProjects_fn => projectsQuery
  | loadProject_fn => projectQuery key
  end.

(** Promise numbers are allocated upwards: nothing refers to a promise that
    has not been created. *)
Definition fresh (w : World) : Prop :=
  map_Forall (λ p _, p < next_id w) (inflight w) ∧
  map_Forall (λ p _, p < next_id w) (settled w) ∧
  Forall (λ pk, fst pk < next_id w) (awaiting w).


(** [groupedProfilesQuery(item.collaborators)] *)
Definition collabs_query (item : Item) : Query :=
  groupedProfilesQuery (item_collaborators item).

(** *** The states of one batch

    A call of [getGroupedCollabs] that found the map [m0] and was given the
    number [P] has the filtered items [f]; the fetch of item [i] is request
    [fetch P i]. *)

Definition fetch (P i : nat) : nat := S P + i.

(** An answer on its way to [Promise.all]: the response has arrived and
    [getProfilesByIds] has not resumed yet, or it has returned and the
    element is not recorded yet. *)
Definition stage_task (P : nat) (e : nat * Response * bool) : Task :=
  if snd e then T_all P (fst (fst e)) (getProfilesByIds_return (snd (fst e)))
  else T_getProfilesByIds P (fst (fst e)) (snd (fst e)).

Definition pend_index (e : nat * Response * bool) : nat := fst (fst e).

Definition unanswered (P : nat) (f : list Item) (i : nat) (vs : list (option Json))
    (w : World) : Prop :=
  (∃ item, f !! i = Some item ∧
     inflight w !! fetch P i = Some (collabs_query item, T_getProfilesByIds P i)) ∧
  vs !! i = Some None.

Definition returned (P i : nat) (v : option Json) (w : World) : Prop :=
  inflight w !! fetch P i = None ∧
  ∃ r, settled w !! fetch P i = Some r ∧ v = Some (getProfilesByIds_return r).

Record collecting (m0 : gmap string Json) (P : nat) (f : list Item)
    (pend : list (nat * Response * bool)) (vs : list (option Json)) (w : World) : Prop := {
  c_map : groupedCollabs w = m0;
  c_batch : batches w !! P = Some (f, vs);
  c_length : length vs = length f;
  c_queue : queue w = map (stage_task P) pend;
  c_nodup : NoDup (map pend_index pend);
  c_pend : ∀ e, e ∈ pend →
    pend_index e < length f ∧ inflight w !! fetch P (pend_index e) = None ∧
    settled w !! fetch P (pend_index e) = Some (snd (fst e)) ∧
    vs !! pend_index e = Some None;
  c_rest : ∀ i, i < length f → i ∉ map pend_index pend →
    unanswered P f i vs w ∨ ∃ v, vs !! i = Some v ∧ returned P i v w;
  c_missing : ∃ i, vs !! i = Some None
}.

Arguments c_map {_ _ _ _ _ _}.
Arguments c_batch {_ _ _ _ _ _}.
Arguments c_length {_ _ _ _ _ _}.
Arguments c_queue {_ _ _ _ _ _}.
Arguments c_nodup {_ _ _ _ _ _}.
Arguments c_pend {_ _ _ _ _ _}.
Arguments c_rest {_ _ _ _ _ _}.
Arguments c_missing {_ _ _ _ _ _}.

(** Every fetch is answered and [results] are the values [getProfilesByIds]
    returned, in the order of the items. *)
Definition answered (P : nat) (f : list Item) (results : list Json) (w : World) : Prop :=
  length results = length f ∧
  ∀ i, i < length f → ∃ v, results !! i = Some v ∧ returned P i (Some v) w.

Definition ready (m0 : gmap string Json) (P : nat) (f : list Item)
    (results : list Json) (w : World) : Prop :=
  answered P f results w ∧ queue w = [T_getGroupedCollabs f results] ∧
  groupedCollabs w = m0.

Definition committed (m0 : gmap string Json) (P : nat) (f : list Item)
    (results : list Json) (w : World) : Prop :=
  answered P f results w ∧ queue w = [] ∧
  groupedCollabs w = forEach_store f 0 results m0.

Inductive batch_state (m0 : gmap string Json) (P : nat) (f : list Item) (w : World) : Prop :=
| bs_collecting pend vs : collecting m0 P f pend vs w → batch_state m0 P f w
| bs_ready results : ready m0 P f results w → batch_state m0 P f w
| bs_committed results : committed m0 P f results w → batch_state m0 P f w.

(** The events of the batch: a microtask runs, or the backend answers one of
    its fetches. *)
Definition batch_event (P : nat) (f : list Item) (e : Event) : Prop :=
  e = Tick ∨ ∃ i r, i < length f ∧ e = Settle (fetch P i) r.

Definition all_answered (P : nat) (f : list Item) (w : World) : Prop :=
  ∀ i, i < length f → inflight w !! fetch P i = None.

(** Microtasks the queued answers still need before they reach [Promise.all]. *)
Fixpoint weight (pend : list (nat * Response * bool)) : nat :=
  match pend with
  | [] => 0
  | e :: pend' => (if snd e then 1 else 2) + weight pend'
  end.

(** Item [i] is the last item of [f] with its identifier. *)
Definition last_with_key (f : list Item) (i : nat) (item : Item) : Prop :=
  f !! i = Some item ∧
  ∀ j item', i < j → f !! j = Some item' → item_key item' ≠ item_key item.

(** *** Test data *)

Definition ok (d : Json) : Response := {| data := d; error := JNull; status := 200 |}.

Definition failed : Response :=
  {| data := JNull; error := JObj [("message", JStr "fetch failed")]; status := 500 |}.

Definition project_X : Json := JObj [("id", JNum 1); ("name", JStr "X"); ("tasks", JArr [])].
Definition project_Y : Json := JObj [("id", JNum 1); ("name", JStr "Y"); ("tasks", JArr [])].
Definition project_B : Json := JObj [("id", JNum 2); ("name", JStr "B"); ("tasks", JArr [])].

Definition three_items : list Item :=
  [ {| item_id := 1; item_collaborators := ["u1"] |};
    {| item_id := 2; item_collaborators := [] |};
    {| item_id := 3; item_collaborators := ["u2"; "u3"] |} ].

Definition loaded : World :=
  run init [Call_getProject "x"; Settle 1 (ok project_X); Tick; Tick].

(** The backend answers the second fetch of [three_items] first, with one
    profile, and fails the first. *)
Definition two_answers : list Event :=
  [Settle 2 (ok (JArr [JStr "p2"])); Tick; Settle 1 failed; Tick; Tick; Tick].

(** The world after the batch over [three_items] has committed: the map holds
    the entries of items 1 and 3. *)
Definition grouped : World :=
  run (getGroupedCollabs three_items init) (two_answers ++ replicate 5 Tick).

(** A later call finds that map: item 1 is grouped again, item 4 is new.  The
    backend answers its second fetch first. *)
Definition later_items : list Item :=
  [ {| item_id := 1; item_collaborators := ["u7"] |};
    {| item_id := 4; item_collaborators := ["u8"] |} ].

Definition later_answers : list Event :=
  [Settle 5 (ok (JArr [JStr "p8"])); Tick; Settle 4 (ok (JArr [JStr "p7"]));
   Tick; Tick; Tick; Tick; Tick; Tick].

(** *** Well-formed worlds

    The numbers in use are below [next_id]: those of the requests in flight,
    of the fulfilled promises, of the awaited and of the cached ones, and of
    the loader promises the pending continuations will fulfil. *)

Definition loader_target_ok (n : nat) (t : Task) : Prop :=
  match t with
  | T_loader p _ => p < n
  | _ => True
  end.

Record wf (w : World) : Prop := {
  wf_inflight : map_Forall (λ p _, p < next_id w) (inflight w);
  wf_settled : map_Forall (λ p _, p < next_id w) (settled w);
  wf_awaiting : Forall (λ pk, fst pk < next_id w) (awaiting w);
  wf_loadProject : map_Forall (λ _ p, p < next_id w) (loadProject_cache w);
  wf_loadProjects : map_Forall (λ _ p, p < next_id w) (loadProjects_cache w);
  wf_queue : Forall (loader_target_ok (next_id w)) (queue w);
  wf_inflight_k :
    map_Forall (λ _ qk, ∀ r, loader_target_ok (next_id w) (snd qk r)) (inflight w);
  wf_awaiting_k : Forall (λ pk, ∀ r, loader_target_ok (next_id w) (snd pk r)) (awaiting w)
}.

(** *** Proof steps *)

Ltac by_fn :=
  match goal with fn : LoaderFn |- _ => destruct fn; simpl in *; done end.

(** Each event of a concrete list is a microtask or the answer to fetch 0 or 1. *)
Ltac batch_events :=
  repeat first
    [ constructor 1
    | constructor 2;
      [ first [ left; reflexivity
              | right; eexists 0, _; split; [vm_compute; lia|reflexivity]
              | right; eexists 1, _; split; [vm_compute; lia|reflexivity] ] | ] ].

(** * Serialisation *)

Example stringify_project :
  JSON.stringify (JObj [("id", JNum 7); ("name", JStr "X"); ("collaborators", JArr [JStr "u1"; JStr "u2"]); ("tasks", JNull)])
  = replace_quotes "{'id':7,'name':'X','collaborators':['u1','u2'],'tasks':null}".
Proof. vm_compute. reflexivity. Qed.

(** * Well-formed worlds *)

Lemma loader_target_ok_mono n n' t : n ≤ n' → loader_target_ok n t → loader_target_ok n' t.
Proof. intros Hn. destruct t; simpl; try done. lia. Qed.

Lemma wf_init : wf init.
Proof.
  constructor; simpl; try apply map_Forall_empty; constructor.
Qed.

Lemma wf_fresh w : wf w → fresh w.
Proof. intros []. by split; [|split]. Qed.

Lemma wf_bump w n : wf w → next_id w ≤ n → wf (set_next_id n w).
Proof.
  intros [H1 H2 H3 H4 H5 H6 H7 H8] Hn. constructor; simpl.
  - eapply map_Forall_impl; [apply H1|]. intros; simpl in *; lia.
  - eapply map_Forall_impl; [apply H2|]. intros; simpl in *; lia.
  - eapply Forall_impl; [apply H3|]. intros; simpl in *; lia.
  - eapply map_Forall_impl; [apply H4|]. intros; simpl in *; lia.
  - eapply map_Forall_impl; [apply H5|]. intros; simpl in *; lia.
  - eapply Forall_impl; [apply H6|]. intros t. by apply loader_target_ok_mono.
  - eapply map_Forall_impl; [apply H7|]. simpl. intros ? qk Hk r.
    eapply loader_target_ok_mono; [|apply Hk]. done.
  - eapply Forall_impl; [apply H8|]. simpl. intros pk Hk r.
    eapply loader_target_ok_mono; [|apply Hk]. done.
Qed.

Lemma wf_request q k w :
  wf w → (∀ r, loader_target_ok (S (next_id w)) (k r)) → wf (request q k w).
Proof.
  intros H Hk. apply (wf_bump w (S (next_id w))) in H; [|lia].
  destruct H. constructor; simpl in *; try done.
  - apply map_Forall_insert_2; [lia|done].
  - apply map_Forall_insert_2; done.
Qed.

Lemma wf_push t w : wf w → loader_target_ok (next_id w) t → wf (push t w).
Proof.
  intros [] Ht. constructor; simpl; try done.
  apply Forall_app. split; [done|]. by constructor.
Qed.

Lemma wf_await p k w :
  wf w → p < next_id w → (∀ r, loader_target_ok (next_id w) (k r)) → wf (await p k w).
Proof.
  intros H Hp Hk. unfold await. destruct (settled w !! p).
  - by apply wf_push.
  - destruct H. constructor; simpl; try done.
    + apply Forall_app. split; [done|]. by constructor.
    + apply Forall_app. split; [done|]. by constructor.
Qed.

Lemma Forall_filter_keep {A} (P Q : A → Prop) `{!∀ x, Decision (Q x)} (l : list A) :
  Forall P l → Forall P (filter Q l).
Proof.
  rewrite !Forall_forall. intros HP x [_ Hx]%list_elem_of_filter. by apply HP.
Qed.

Lemma wf_fulfil p r w : wf w → p < next_id w → wf (fulfil p r w).
Proof.
  intros [] Hp. constructor; simpl; try done.
  - by apply map_Forall_insert_2.
  - by apply Forall_filter_keep.
  - apply Forall_app. split; [done|].
    apply Forall_fmap, Forall_filter_keep.
    eapply Forall_impl; [done|]. intros pk Hk. apply Hk.
  - by apply Forall_filter_keep.
Qed.

Lemma wf_settle p r w : wf w → wf (settle p r w).
Proof.
  intros H. unfold settle. destruct (inflight w !! p) as [[q k]|] eqn:E; [|done].
  apply wf_push.
  - destruct H. constructor; simpl; try done.
    + by apply map_Forall_delete.
    + apply map_Forall_insert_2; [|done]. by eapply (wf_inflight0 p).
    + by apply map_Forall_delete.
  - simpl. by apply (wf_inflight_k w H p (q, k)).
Qed.

Lemma wf_validateCache ref query key fn w : wf w → wf (validateCache ref query key fn w).
Proof.
  intros H. unfold validateCache. destruct (negb _); [done|]. by apply wf_request.
Qed.

Lemma wf_memo_delete fn key w : wf w → wf (memo_delete fn key w).
Proof.
  intros []. destruct fn; constructor; simpl; try done; by apply map_Forall_delete.
Qed.

Lemma wf_ref_assign ref v w : wf w → wf (ref_assign ref v w).
Proof. intros []. by destruct ref. Qed.

Lemma wf_loader fn K w :
  wf w → wf (snd (loader fn K w)) ∧ fst (loader fn K w) < next_id (snd (loader fn K w)).
Proof.
  intros H.
  destruct (cache_of fn w !! K) as [p|] eqn:E.
  - replace (loader fn K w) with (p, w).
    + split; [done|]. destruct fn; simpl in *; [by apply (wf_loadProjects w H K)|by apply (wf_loadProject w H K)].
    + destruct fn; simpl in *; unfold loadProjects, loadProject, useMemoize; simpl; by rewrite E.
  - assert (Hr : ∀ q, wf (request q (T_loader (next_id w)) (set_next_id (S (next_id w)) w))).
    { intros q. apply wf_request; [apply wf_bump; [done|lia]|]. simpl. lia. }
    destruct fn; simpl in *; unfold loadProjects, loadProject, useMemoize; simpl; rewrite E; simpl.
    + split; [|lia]. destruct (Hr projectsQuery). constructor; simpl in *; try done.
      apply map_Forall_insert_2; [lia|done].
    + split; [|lia]. destruct (Hr (projectQuery K)). constructor; simpl in *; try done.
      apply map_Forall_insert_2; [lia|done].
Qed.

Lemma wf_map_getProfilesByIds items : ∀ b i w, wf w → wf (map_getProfilesByIds b i items w).
Proof.
  induction items as [|item items IH]; intros b i w H; simpl; [done|].
  apply IH. by apply wf_request.
Qed.

Lemma wf_exec t w : wf w → loader_target_ok (next_id w) t → wf (exec t w).
Proof.
  intros H Ht. destruct t; simpl.
  - by apply wf_fulfil.
  - unfold getProjects_resume. apply wf_validateCache.
    destruct (truthy (error r)), (truthy (data r)); by destruct H.
  - unfold getProject_resume. apply wf_validateCache.
    destruct (truthy (error r)), (truthy (data r)); by destruct H.
  - unfold validateCache_then. case_decide; [done|].
    destruct (negb _ && _); [apply wf_ref_assign|]; by apply wf_memo_delete.
  - by apply wf_push.
  - unfold all_element. destruct (batches w !! batch) as [[its vs]|]; [|done].
    destruct (mapM id _); [apply wf_push; [|done]|]; by destruct H.
  - by destruct H.
  - done.
Qed.

Lemma wf_step w e : wf w → wf (step w e).
Proof.
  intros H. destruct e; simpl.
  - unfold getProjects.
    assert (wf (set_projects JNull w)) as H1 by (by destruct H).
    destruct (wf_loader loadProjects_fn "projects" _ H1) as [H2 Hp]. simpl in H2, Hp.
    destruct (loadProjects "projects" (set_projects JNull w)) as [p w2]. by apply wf_await.
  - unfold getProject.
    assert (wf (set_project JNull w)) as H1 by (by destruct H).
    destruct (wf_loader loadProject_fn slug _ H1) as [H2 Hp]. simpl in H2, Hp.
    destruct (loadProject slug (set_project JNull w)) as [p w2]. by apply wf_await.
  - unfold updateProject. destruct (negb _); [done|]. by apply wf_request.
  - unfold getGroupedCollabs.
    assert (wf (map_getProfilesByIds (next_id w) 0 (filter has_collaborators items)
                  (set_next_id (S (next_id w)) w))) as H1.
    { apply wf_map_getProfilesByIds, wf_bump; [done|lia]. }
    destruct (filter has_collaborators items).
    + apply wf_push; [|done]. by destruct H1.
    + by destruct H1.
  - by apply wf_settle.
  - destruct (queue w) as [|t q] eqn:Q; [done|].
    pose proof (wf_queue w H) as Hq. rewrite Q in Hq. apply Forall_cons in Hq as [Ht Hq].
    apply wf_exec; [|done]. destruct H. by constructor.
Qed.

(** Every world the loop reaches from the initial one is well formed. *)
Lemma wf_run es : ∀ w, wf w → wf (run w es).
Proof.
  induction es as [|e es IH]; intros w H; [done|]. simpl. by apply IH, wf_step.
Qed.

Lemma fresh_reachable es : fresh (run init es).
Proof. apply wf_fresh, wf_run, wf_init. Qed.

(** * The projects store *)

(** ** Refs and caches under the store operations *)

Lemma ref_value_assign ref v w : ref_value ref (ref_assign ref v w) = v.
Proof. by destruct ref. Qed.

Lemma cache_of_set fn c w : cache_of fn (set_cache_of fn c w) = c.
Proof. by destruct fn. Qed.

Lemma cache_of_memo_delete fn key w :
  cache_of fn (memo_delete fn key w) = delete key (cache_of fn w).
Proof. apply cache_of_set. Qed.

Lemma ref_value_memo_delete ref fn key w :
  ref_value ref (memo_delete fn key w) = ref_value ref w.
Proof. by destruct ref, fn. Qed.

Lemma cache_of_ref_assign fn ref v w :
  cache_of fn (ref_assign ref v w) = cache_of fn w.
Proof. by destruct ref, fn. Qed.

Lemma cache_of_map_getProfilesByIds fn items b i w :
  cache_of fn (map_getProfilesByIds b i items w) = cache_of fn w.
Proof.
  revert i w. induction items as [|it its IH]; intros; simpl; [done|].
  rewrite IH. by destruct fn.
Qed.

Lemma cache_of_getGroupedCollabs fn items w :
  cache_of fn (getGroupedCollabs items w) = cache_of fn w.
Proof.
  unfold getGroupedCollabs.
  transitivity (cache_of fn (map_getProfilesByIds (next_id w) 0
    (filter has_collaborators items) (set_next_id (S (next_id w)) w))).
  - destruct (filter _ items); by destruct fn.
  - rewrite cache_of_map_getProfilesByIds. by destruct fn.
Qed.

(** ** [updateProject] *)

Lemma elem_of_rest_props names j k v :
  (k, v) ∈ rest_props names j ↔ (k, v) ∈ own_props j ∧ k ∉ names.
Proof. unfold rest_props. rewrite list_elem_of_filter. simpl. tauto. Qed.

(** C7. With an empty slot [updateProject] returns at its guard: no write is
    invoked and the world, the store and the set of pending operations alike,
    is the one before the call. *)
Theorem updateProject_empty_slot (w : World) :
  truthy (project w) = false →
  updateProject w = w ∧ step w Call_updateProject = w ∧
  query_log (updateProject w) = query_log w ∧
  inflight (updateProject w) = inflight w ∧
  queue (updateProject w) = queue w.
Proof.
  intros H. assert (updateProject w = w) as E.
  { unfold updateProject. by rewrite H. }
  simpl. by rewrite E.
Qed.

Lemma updateProject_empty_slot_witness :
  truthy (project init) = false ∧ updateProject init = init.
Proof.
  split; [reflexivity|].
  apply (updateProject_empty_slot init). reflexivity.
Defined.

Lemma prop_cons name k x fs :
  prop name (JObj ((k, x) :: fs)) = if decide (k = name) then Some x else prop name (JObj fs).
Proof.
  unfold prop. simpl. case_decide; [done|].
  destruct (list_find _ fs) as [[i kv]|]; done.
Qed.

(** In an object with distinct property names, [obj.name] is the value
    stored under [name]. *)
Lemma prop_elem_of name fs v :
  NoDup (map fst fs) → prop name (JObj fs) = Some v ↔ (name, v) ∈ fs.
Proof.
  induction fs as [|[k x] fs IH]; intros Hnd.
  - split; [done|by intros ?%elem_of_nil].
  - simpl in Hnd. apply NoDup_cons in Hnd as [Hk Hnd].
    rewrite prop_cons, elem_of_cons. case_decide as E.
    + subst k. split; [intros [= ->]; by left|].
      intros [[= ->]|Hin]; [done|]. exfalso. apply Hk.
      apply list_elem_of_fmap. by exists (name, v).
    + rewrite IH by done. split; [by right|]. intros [[= ? ?]|?]; [congruence|done].
Qed.

(** C9. With a project in the slot [updateProject] invokes
    [updateProjectQuery] once.  Its first argument holds the properties of
    the project other than [id] and [tasks], in their order; its second
    argument is the project's [id].  For the project object with the
    properties [fs]: the payload is [fs] without the properties named [id]
    and [tasks], and the identifier is the value [fs] has under [id]. *)
Theorem updateProject_payload (w : World) :
  truthy (project w) = true →
  ∃ payload ident,
    updateProject w = request (updateProjectQuery payload ident) T_updateProject w ∧
    query_log (updateProject w) = query_log w ++ [updateProjectQuery payload ident] ∧
    inflight (updateProject w) !! next_id w
      = Some (updateProjectQuery payload ident, T_updateProject) ∧
    ident = prop "id" (project w) ∧
    sublist payload (own_props (project w)) ∧
    (∀ v, ¬ (("id", v) ∈ payload ∨ ("tasks", v) ∈ payload)) ∧
    (∀ k v, (k, v) ∈ payload ↔ (k, v) ∈ own_props (project w) ∧ k ≠ "id" ∧ k ≠ "tasks") ∧
    (∀ fs, project w = JObj fs →
       payload = filter (λ kv, fst kv ≠ "tasks" ∧ fst kv ≠ "id") fs ∧
       (∀ k v, (k, v) ∈ payload ↔ (k, v) ∈ fs ∧ k ≠ "id" ∧ k ≠ "tasks") ∧
       (NoDup (map fst fs) → ∀ v, ident = Some v ↔ ("id", v) ∈ fs)).
Proof.
  intros H. unfold updateProject. rewrite H. simpl.
  assert (Hin : ∀ k v, (k, v) ∈ rest_props ["tasks"; "id"] (project w)
            ↔ (k, v) ∈ own_props (project w) ∧ k ≠ "id" ∧ k ≠ "tasks").
  { intros k v. rewrite elem_of_rest_props, !not_elem_of_cons.
    pose proof (not_elem_of_nil k). tauto. }
  eexists _, _. split; [reflexivity|]. split; [reflexivity|].
  split; [by rewrite lookup_insert_eq|]. split; [reflexivity|].
  split; [apply sublist_filter|]. split; [|split; [done|]].
  { intros v [?%Hin|?%Hin]; tauto. }
  intros fs Hfs. split; [|split].
  - rewrite Hfs. unfold rest_props. simpl. apply list_filter_iff. intros [k x]. simpl.
    rewrite !not_elem_of_cons. pose proof (not_elem_of_nil k). tauto.
  - intros k v. rewrite Hin, Hfs. done.
  - intros Hnd v. rewrite Hfs. by apply prop_elem_of.
Qed.

Lemma updateProject_payload_witness :
  truthy (project loaded) = true ∧
  project loaded = JObj [("id", JNum 1); ("name", JStr "X"); ("tasks", JArr [])] ∧
  updateProject loaded
  = request (updateProjectQuery [("name", JStr "X")] (Some (JNum 1))) T_updateProject loaded ∧
  query_log (updateProject loaded)
  = [projectQuery "x"; projectQuery "x";
     updateProjectQuery [("name", JStr "X")] (Some (JNum 1))].
Proof.
  split; [reflexivity|]. split; [reflexivity|].
  destruct (updateProject_payload loaded) as (payload & ident & E & Hl & _ & Hi & _ & _ & _ & Hfs);
    [reflexivity|].
  destruct (Hfs [("id", JNum 1); ("name", JStr "X"); ("tasks", JArr [])] eq_refl)
    as (Hp & _ & Hid).
  assert (ident = Some (JNum 1)) as ->.
  { apply Hid; [|left]. repeat constructor; rewrite ?elem_of_cons, ?elem_of_nil;
      intros H; repeat destruct H as [H|H]; discriminate || done. }
  assert (payload = [("name", JStr "X")]) as ->.
  { rewrite Hp. reflexivity. }
  split; [exact E|exact Hl].
Defined.

(** ** [validateCache] *)

(** C2, as the code has it.  Called on an empty slot, [validateCache] does
    nothing.  Called on a slot that holds data, it issues the fresh query and
    changes nothing else.  When the fresh result arrives: if its data
    serialises like the current value of the slot, nothing is modified;
    otherwise the cache entry of the key is deleted, and the slot takes the
    fresh data when the result has no error and has data, and keeps its value
    when it has an error or no data. *)
Theorem validateCache_revalidation (ref : Ref) (query : QuerySource) (key : string)
    (loaderFn : LoaderFn) (r : Response) (w : World) :
  (truthy (ref_value ref w) = false → validateCache ref query key loaderFn w = w) ∧
  (truthy (ref_value ref w) = true →
     validateCache ref query key loaderFn w
     = request (finalQuery query key) (T_validateCache ref key loaderFn) w) ∧
  (JSON.stringify (ref_value ref w) = JSON.stringify (data r) →
     validateCache_then ref key loaderFn r w = w) ∧
  (JSON.stringify (ref_value ref w) ≠ JSON.stringify (data r) →
     let w' := validateCache_then ref key loaderFn r w in
     cache_of loaderFn w' = delete key (cache_of loaderFn w) ∧
     cache_of loaderFn w' !! key = None ∧
     (truthy (error r) = false → truthy (data r) = true → ref_value ref w' = data r) ∧
     (truthy (error r) = true ∨ truthy (data r) = false → ref_value ref w' = ref_value ref w)).
Proof.
  unfold validateCache, validateCache_then.
  split; [by intros ->|]. split; [by intros ->|]. split.
  - intros H. by rewrite decide_True.
  - intros H. rewrite decide_False by done. simpl.
    assert (Hc : ∀ b : bool, cache_of loaderFn
        (if b then ref_assign ref (data r) (memo_delete loaderFn key w)
         else memo_delete loaderFn key w) = delete key (cache_of loaderFn w)).
    { intros [|]; by rewrite ?cache_of_ref_assign, cache_of_memo_delete. }
    split; [apply Hc|]. split; [by rewrite Hc, lookup_delete_eq|]. split.
    + intros -> ->. simpl. apply ref_value_assign.
    + intros [-> | ->]; simpl; rewrite ?andb_false_r; apply ref_value_memo_delete.
Qed.

Lemma validateCache_revalidation_witness :
  truthy (project loaded) = true ∧
  JSON.stringify (project loaded) ≠ JSON.stringify (data (ok project_Y)) ∧
  JSON.stringify (project loaded) = JSON.stringify (data (ok project_X)) ∧
  validateCache_then project_ref "x" loadProject_fn (ok project_X) loaded = loaded ∧
  loadProject_cache loaded !! "x" = Some 0 ∧
  (let w' := validateCache_then project_ref "x" loadProject_fn (ok project_Y) loaded in
   loadProject_cache w' !! "x" = None ∧ project w' = project_Y) ∧
  (let w' := validateCache_then project_ref "x" loadProject_fn failed loaded in
   loadProject_cache w' !! "x" = None ∧ project w' = project loaded).
Proof.
  assert (JSON.stringify (project loaded) ≠ JSON.stringify (data (ok project_Y))) as Hy.
  { vm_compute. discriminate. }
  assert (JSON.stringify (project loaded) ≠ JSON.stringify (data failed)) as Hf.
  { vm_compute. discriminate. }
  assert (JSON.stringify (project loaded) = JSON.stringify (data (ok project_X))) as Hx.
  { reflexivity. }
  split; [reflexivity|]. split; [exact Hy|]. split; [exact Hx|].
  split.
  { apply (validateCache_revalidation project_ref (QueryFn projectQuery) "x" loadProject_fn
             (ok project_X) loaded). exact Hx. }
  split; [reflexivity|]. split.
  - destruct (validateCache_revalidation project_ref (QueryFn projectQuery) "x" loadProject_fn
                (ok project_Y) loaded) as (_ & _ & _ & H).
    destruct (H Hy) as (_ & Hc & Hs & _). split; [exact Hc|]. apply Hs; reflexivity.
  - destruct (validateCache_revalidation project_ref (QueryFn projectQuery) "x" loadProject_fn
                failed loaded) as (_ & _ & _ & H).
    destruct (H Hf) as (_ & Hc & _ & Hs). split; [exact Hc|]. apply Hs. left. reflexivity.
Defined.

(** The revalidation of a loaded project fails: the slot holds data, the
    fresh result differs from it, the cache entry is deleted, and the slot is
    not replaced with the fresh data. *)
Lemma validateCache_failed_fetch :
  let w := run init [Call_getProject "x"; Settle 1 (ok project_X); Tick; Tick; Settle 2 failed] in
  queue w = [T_validateCache project_ref "x" loadProject_fn failed] ∧
  truthy (project w) = true ∧
  JSON.stringify (project w) ≠ JSON.stringify (data failed) ∧
  loadProject_cache w !! "x" = Some 0 ∧
  loadProject_cache (step w Tick) !! "x" = None ∧
  project (step w Tick) = project_X ∧
  project (step w Tick) ≠ data failed.
Proof. vm_compute. repeat split; discriminate. Qed.

(** ** The memoized loaders *)

Lemma loader_miss fn K w :
  cache_of fn w !! K = None →
  ∃ w', loader fn K w = (next_id w, w') ∧
    query_log w' = query_log w ++ [underlying fn K] ∧
    inflight w' !! S (next_id w) = Some (underlying fn K, T_loader (next_id w)) ∧
    cache_of fn w' !! K = Some (next_id w).
Proof.
  intros H. destruct fn; simpl in *;
    unfold loadProjects, loadProject, useMemoize; simpl; rewrite H; simpl;
    (eexists; split; [reflexivity|]); simpl; by rewrite !lookup_insert_eq.
Qed.

Lemma loader_hit fn K w p :
  cache_of fn w !! K = Some p → loader fn K w = (p, w).
Proof.
  intros H. destruct fn; simpl in *;
    unfold loadProjects, loadProject, useMemoize; simpl; by rewrite H.
Qed.

(** An entry stays until a revalidation deletes it. *)
Lemma cache_step fn K p w e :
  cache_of fn w !! K = Some p →
  cache_of fn (step w e) !! K = Some p ∨
  ∃ ref r q, e = Tick ∧ queue w = T_validateCache ref K fn r :: q.
Proof.
  intros H. destruct e; simpl.
  - left. unfold getProjects, loadProjects, useMemoize, await. simpl.
    destruct (loadProjects_cache w !! "projects") eqn:E; simpl.
    + destruct (settled w !! n); by_fn.
    + destruct (settled w !! next_id w); destruct fn; simpl in *; try done;
      (destruct (decide (K = "projects")) as [->|]; [congruence|by rewrite lookup_insert_ne]).
  - left. unfold getProject, loadProject, useMemoize, await. simpl.
    destruct (loadProject_cache w !! slug) eqn:E; simpl.
    + destruct (settled w !! n); by_fn.
    + destruct (settled w !! next_id w); destruct fn; simpl in *; try done;
      (destruct (decide (K = slug)) as [->|]; [congruence|by rewrite lookup_insert_ne]).
  - left. unfold updateProject. destruct (negb _); by_fn.
  - left. by rewrite cache_of_getGroupedCollabs.
  - left. unfold settle. destruct (inflight w !! p0) as [[? ?]|]; by_fn.
  - destruct (queue w) as [|t q] eqn:Q; [by left|].
    destruct t; simpl.
    + left. by_fn.
    + left. unfold getProjects_resume, validateCache.
      repeat (destruct (truthy _); simpl); by_fn.
    + left. unfold getProject_resume, validateCache.
      repeat (destruct (truthy _); simpl); by_fn.
    + unfold validateCache_then. case_decide; [left; by_fn|].
      destruct (decide (loaderFn = fn ∧ key = K)) as [[-> ->]|Hne].
      { right. eauto. }
      left.
      destruct (negb _ && _); destruct ref, loaderFn, fn; simpl in *; try done;
        (rewrite lookup_delete_ne; [done|intros ->; by apply Hne]).
    + left. by_fn.
    + left. unfold all_element. simpl. destruct (batches w !! batch) as [[? ?]|]; [|by_fn].
      destruct (mapM _ _); by_fn.
    + left. by_fn.
    + left. by_fn.
Qed.

(** C4. The first call with key [K] invokes the underlying query once,
    caches the promise of that invocation and returns it.  A call that finds
    an entry for [K] returns the cached promise and changes nothing: no query
    is invoked.  The entry survives every event other than a revalidation
    callback for [K] that finds the data changed; once deleted, the next call
    is a first call again. *)
Theorem memoized_loader (fn : LoaderFn) (K : string) (w : World) :
  (cache_of fn w !! K = None →
     ∃ w', loader fn K w = (next_id w, w') ∧
       query_log w' = query_log w ++ [underlying fn K] ∧
       inflight w' !! S (next_id w) = Some (underlying fn K, T_loader (next_id w)) ∧
       cache_of fn w' !! K = Some (next_id w)) ∧
  (∀ p, cache_of fn w !! K = Some p → loader fn K w = (p, w)) ∧
  (∀ p e, cache_of fn w !! K = Some p →
     cache_of fn (step w e) !! K = Some p ∨
     ∃ ref r q, e = Tick ∧ queue w = T_validateCache ref K fn r :: q) ∧
  cache_of fn (memo_delete fn K w) !! K = None ∧
  (∃ w', loader fn K (memo_delete fn K w) = (next_id w, w') ∧
     query_log w' = query_log w ++ [underlying fn K]).
Proof.
  split; [apply loader_miss|]. split; [intros p; apply loader_hit|].
  split; [intros p e; apply cache_step|].
  assert (cache_of fn (memo_delete fn K w) !! K = None) as Hd.
  { by rewrite cache_of_memo_delete, lookup_delete_eq. }
  split; [done|].
  destruct (loader_miss fn K _ Hd) as (w' & Hl & Hq & _).
  exists w'. by destruct fn.
Qed.

Lemma memoized_loader_witness :
  loadProject_cache init !! "x" = None ∧
  (∃ w', loadProject "x" init = (0, w') ∧ query_log w' = [projectQuery "x"] ∧
         loadProject_cache w' !! "x" = Some 0) ∧
  loadProject_cache loaded !! "x" = Some 0 ∧
  loadProject "x" loaded = (0, loaded).
Proof.
  split; [reflexivity|]. split.
  - destruct (memoized_loader loadProject_fn "x" init) as (H & _).
    destruct (H eq_refl) as (w' & E & Hq & _ & Hc). exists w'.
    split; [exact E|]. split; [exact Hq|exact Hc].
  - split; [reflexivity|].
    destruct (memoized_loader loadProject_fn "x" loaded) as (_ & H & _).
    apply (H 0). reflexivity.
Defined.

(** ** Reset before fetch *)

(** C3, as the code has it.  [getProject] and [getProjects] assign [null] to
    their slot before anything else and are suspended right after the call of
    the loader: the continuation that assigns the loaded data waits for the
    loader promise, or, when that promise is already fulfilled, is queued as
    a microtask behind the caller. *)
Theorem reset_before_fetch (w : World) (slug : string) :
  project (step w (Call_getProject slug)) = JNull ∧
  projects (step w Call_getProjects) = JNull ∧
  (∃ p, loadProject_cache (getProject slug w) !! slug = Some p ∧
     ((queue (getProject slug w) = queue w ∧
       awaiting (getProject slug w) = awaiting w ++ [(p, T_getProject slug)]) ∨
      (∃ r, queue (getProject slug w) = queue w ++ [T_getProject slug r] ∧
       awaiting (getProject slug w) = awaiting w))) ∧
  (∃ p, loadProjects_cache (getProjects w) !! "projects" = Some p ∧
     ((queue (getProjects w) = queue w ∧
       awaiting (getProjects w) = awaiting w ++ [(p, T_getProjects)]) ∨
      (∃ r, queue (getProjects w) = queue w ++ [T_getProjects r] ∧
       awaiting (getProjects w) = awaiting w))).
Proof.
  simpl. unfold getProject, getProjects, loadProject, loadProjects, useMemoize, await. simpl.
  split; [|split; [|split]].
  - destruct (loadProject_cache w !! slug); simpl.
    + by destruct (settled w !! n).
    + by destruct (settled w !! next_id w).
  - destruct (loadProjects_cache w !! "projects"); simpl.
    + by destruct (settled w !! n).
    + by destruct (settled w !! next_id w).
  - destruct (loadProject_cache w !! slug) as [p|] eqn:E; simpl.
    + exists p. destruct (settled w !! p); simpl; (split; [done|]); eauto.
    + exists (next_id w).
      destruct (settled w !! next_id w); simpl; rewrite lookup_insert_eq;
        (split; [done|]); eauto.
  - destruct (loadProjects_cache w !! "projects") as [p|] eqn:E; simpl.
    + exists p. destruct (settled w !! p); simpl; (split; [done|]); eauto.
    + exists (next_id w).
      destruct (settled w !! next_id w); simpl; rewrite lookup_insert_eq;
        (split; [done|]); eauto.
Qed.

(** The slot goes from one project to a different one in one step, with no
    empty state in between: the revalidation of a cached project assigns the
    fresh data over the cached data; and the fetch of a superseded call
    settles after the fetch of the call that superseded it. *)
Lemma slot_direct_transition :
  (let w := run init [Call_getProject "x"; Settle 1 (ok project_X); Tick; Tick;
                      Settle 2 (ok project_Y)] in
   project w = project_X ∧ project (step w Tick) = project_Y) ∧
  (let w := run init [Call_getProject "x"; Call_getProject "b";
                      Settle 1 (ok project_X); Tick; Tick; Settle 3 (ok project_B); Tick] in
   project w = project_X ∧ project (step w Tick) = project_B) ∧
  truthy project_X = true ∧ truthy project_Y = true ∧ truthy project_B = true ∧
  project_X ≠ project_Y ∧ project_X ≠ project_B.
Proof. vm_compute. repeat split; discriminate. Qed.

(** ** The race between two calls *)

Lemma fresh_inflight w p : fresh w → next_id w ≤ p → inflight w !! p = None.
Proof.
  intros (H & _ & _) Hp. destruct (inflight w !! p) eqn:E; [|done].
  apply H in E. lia.
Qed.








(** * The grouped fetch *)

Lemma map_getProfilesByIds_spec items : ∀ batch index w,
  let w' := map_getProfilesByIds batch index items w in
  next_id w' = next_id w + length items ∧
  query_log w' = query_log w ++ map collabs_query items ∧
  (∀ p, inflight w' !! p =
     if decide (next_id w ≤ p < next_id w + length items)
     then (λ item, (collabs_query item, T_getProfilesByIds batch (index + (p - next_id w))))
            <$> items !! (p - next_id w)
     else inflight w !! p) ∧
  groupedCollabs w' = groupedCollabs w ∧ queue w' = queue w ∧
  settled w' = settled w ∧ batches w' = batches w.
Proof.
  induction items as [|item items IH]; intros batch index w; simpl.
  - rewrite Nat.add_0_r, app_nil_r. repeat split; try done.
    intros p. case_decide; [lia|done].
  - destruct (IH batch (S index) (getProfilesByIds batch index (item_collaborators item) w))
      as (Hn & Hl & Hi & Hg & Hq & Hs & Hb).
    unfold getProfilesByIds, request in *. simpl in *.
    rewrite Hn, Hl, Hg, Hq, Hs, Hb. simpl.
    split; [lia|]. split; [by rewrite <- app_assoc|]. split; [|done].
    intros p. rewrite Hi. simpl.
    repeat case_decide; try lia.
    + replace (p - next_id w) with (S (p - S (next_id w))) by lia. simpl.
      by rewrite Nat.add_succ_r.
    + assert (p = next_id w) as -> by lia.
      rewrite lookup_insert_eq, Nat.sub_diag, Nat.add_0_r. done.
    + rewrite lookup_insert_ne by lia. done.
Qed.

Section batch.
Variables (m0 : gmap string Json) (P : nat) (f : list Item).

Local Abbreviation fetch := (fetch P).
Local Abbreviation stage_task := (stage_task P).
Local Abbreviation unanswered := (unanswered P f).
Local Abbreviation returned := (returned P).
Local Abbreviation collecting := (collecting m0 P f).
Local Abbreviation answered := (answered P f).
Local Abbreviation ready := (ready m0 P f).
Local Abbreviation committed := (committed m0 P f).
Local Abbreviation batch_state := (batch_state m0 P f).
Local Abbreviation batch_event := (batch_event P f).
Local Abbreviation all_answered := (all_answered P f).

Lemma fetch_inj i j : fetch i = fetch j → i = j.
Proof. unfold fetch. lia. Qed.

Lemma mapM_id_None (vs : list (option Json)) :
  mapM id vs = None → ∃ i, vs !! i = Some None.
Proof.
  intros H.
  assert (¬ Forall (is_Some ∘ id) vs) as Hn.
  { rewrite <- mapM_is_Some. rewrite H. by intros [? ?]. }
  apply not_Forall_Exists in Hn; [|apply _].
  apply Exists_exists in Hn as (x & Hx & Hs).
  apply list_elem_of_lookup in Hx as (i & Hi). exists i.
  destruct x; [|done]. exfalso. apply Hs. simpl. eauto.
Qed.

Lemma mapM_id_lookup (vs : list (option Json)) results i x :
  mapM id vs = Some results → vs !! i = Some x → ∃ v, x = Some v ∧ results !! i = Some v.
Proof.
  intros H Hi. apply mapM_Some in H.
  destruct (Forall2_lookup_l _ _ _ _ _ H Hi) as (v & Hv & Hx). simpl in Hx. eauto.
Qed.

(** The backend answers a fetch of the batch. *)
Lemma collecting_settle pend vs w i r :
  collecting pend vs w → i < length f →
  (inflight w !! fetch i = None ∧ settle (fetch i) r w = w) ∨
  collecting (pend ++ [(i, r, false)]) vs (settle (fetch i) r w).
Proof.
  intros C Hi. unfold settle.
  destruct (inflight w !! fetch i) as [[q k]|] eqn:E; [right|by left].
  assert (Hni : i ∉ map pend_index pend).
  { intros Hin. apply list_elem_of_fmap in Hin as (e & -> & He).
    apply (c_pend C) in He. destruct He as (_ & He & _). congruence. }
  destruct (c_rest C i Hi Hni) as [[(item & Hitem & Hin) Hv]|(v & _ & Hin & _)];
    [|congruence].
  rewrite E in Hin. injection Hin as -> ->.
  constructor; simpl.
  - apply C.
  - apply C.
  - apply C.
  - rewrite (c_queue C), map_app. done.
  - rewrite map_app. simpl. apply NoDup_app. split; [apply C|].
    split; [|apply NoDup_singleton].
    intros x Hx ->%list_elem_of_singleton. done.
  - intros e [He| ->%list_elem_of_singleton]%elem_of_app.
    + destruct (c_pend C e He) as (H1 & H2 & H3 & H4).
      assert (pend_index e ≠ i).
      { intros <-. apply Hni, list_elem_of_fmap. eauto. }
      split; [done|]. split; [|split; [|done]].
      * rewrite lookup_delete_ne; [done|]. intros ?%fetch_inj. done.
      * rewrite lookup_insert_ne; [done|]. intros ?%fetch_inj. done.
    + simpl. unfold pend_index. simpl.
      rewrite lookup_delete_eq, lookup_insert_eq. done.
  - intros j Hj Hnj. rewrite map_app, not_elem_of_app in Hnj. destruct Hnj as [Hnj Hji].
    simpl in Hji. rewrite list_elem_of_singleton in Hji. unfold pend_index in Hji. simpl in Hji.
    assert (fetch i ≠ fetch j) by (intros ?%fetch_inj; done).
    destruct (c_rest C j Hj Hnj) as [[(it & ? & ?) ?]|(v & ? & ? & r' & ? & ?)].
    + left. split; [|done]. exists it. split; [done|]. simpl. by rewrite lookup_delete_ne.
    + right. exists v. split; [done|]. split; simpl.
      * by rewrite lookup_delete_ne.
      * exists r'. by rewrite lookup_insert_ne.
  - apply C.
Qed.

Lemma collecting_pend_nil vs w :
  collecting [] vs w → ¬ all_answered w.
Proof.
  intros C Ha. destruct (c_missing C) as (i & Hi).
  assert (i < length f) as Hlt.
  { rewrite <- (c_length C). by eapply lookup_lt_Some. }
  destruct (c_rest C i Hlt) as [[(it & _ & Hin) _]|(v & Hv & _ & r & _ & ->)].
  - simpl. apply not_elem_of_nil.
  - rewrite (Ha i Hlt) in Hin. done.
  - congruence.
Qed.

(** The next microtask of a batch that is still collecting. *)
Lemma collecting_tick pend vs w :
  collecting pend vs w →
  inflight (step w Tick) = inflight w ∧
  match pend with
  | [] => step w Tick = w
  | (i, r, false) :: pend' => collecting (pend' ++ [(i, r, true)]) vs (step w Tick)
  | (i, r, true) :: pend' =>
      collecting pend' (<[i := Some (getProfilesByIds_return r)]> vs) (step w Tick) ∨
      (pend' = [] ∧ ∃ results, ready results (step w Tick))
  end.
Proof.
  intros C. simpl. rewrite (c_queue C).
  destruct pend as [|[[i r] [|]] pend']; simpl; [| |].
  - done.
  - (* [Promise.all] receives element [i] *)
    unfold stage_task at 1. simpl. unfold all_element. simpl.
    rewrite (c_batch C).
    pose proof (c_nodup C) as Hnd. simpl in Hnd. apply NoDup_cons in Hnd as [Hni Hnd].
    unfold pend_index at 1 in Hni. simpl in Hni.
    destruct (c_pend C (i, r, true)) as (Hi & Hin & Hse & Hv); [left|].
    unfold pend_index in Hi, Hin, Hse, Hv. simpl in Hi, Hin, Hse, Hv.
    assert (Hiv : i < length vs) by (by rewrite (c_length C)).
    destruct (mapM id (<[i:=Some (getProfilesByIds_return r)]> vs)) as [results|] eqn:M; simpl.
    + split; [done|]. right.
      assert (pend' = []) as ->.
      { destruct pend' as [|e pend'']; [done|]. exfalso.
        destruct (c_pend C e) as (_ & _ & _ & He); [right; left|].
        assert (pend_index e ≠ i) as Hne.
        { intros E. apply Hni. rewrite <- E. left. }
        assert (<[i:=Some (getProfilesByIds_return r)]> vs !! pend_index e = Some None) as Hl.
        { rewrite list_lookup_insert_ne; done. }
        destruct (mapM_id_lookup _ _ _ _ M Hl) as (? & ? & _). done. }
      split; [done|]. exists results. split; [|split; [done|apply C]].
      split.
      { apply mapM_Some, Forall2_length in M. rewrite length_insert in M.
        rewrite <- M. apply C. }
      intros j Hj.
      assert (j < length vs) as Hjv by (by rewrite (c_length C)).
      destruct (lookup_lt_is_Some_2 (<[i:=Some (getProfilesByIds_return r)]> vs) j) as [x Hx];
        [by rewrite length_insert|].
      destruct (mapM_id_lookup _ _ _ _ M Hx) as (v & -> & Hr).
      exists v. split; [done|].
      destruct (decide (j = i)) as [->|Hne].
      * rewrite list_lookup_insert_eq in Hx by done. injection Hx as <-.
        split; simpl; [done|eauto].
      * rewrite list_lookup_insert_ne in Hx by done.
        destruct (c_rest C j Hj) as [[_ Hu]|(v' & Hv' & Hret)].
        { simpl. rewrite not_elem_of_cons. unfold pend_index at 1. simpl. split; [done|].
          apply not_elem_of_nil. }
        { congruence. }
        { rewrite Hx in Hv'. injection Hv' as <-. apply Hret. }
    + split; [done|]. left. constructor; simpl.
      * apply C.
      * by rewrite lookup_insert_eq.
      * rewrite length_insert. apply C.
      * done.
      * done.
      * intros e He.
        destruct (c_pend C e) as (H1 & H2 & H3 & H4); [by right|].
        assert (pend_index e ≠ i) as Hne.
        { intros E. apply Hni. rewrite <- E. apply list_elem_of_fmap. eauto. }
        rewrite list_lookup_insert_ne by done. done.
      * intros j Hj Hnj.
        destruct (decide (j = i)) as [->|Hne].
        { right. exists (Some (getProfilesByIds_return r)).
          rewrite list_lookup_insert_eq by done. split; [done|].
          split; [done|]. eauto. }
        destruct (c_rest C j Hj) as [[Hu Hv']|(v & Hv' & Hr)].
        { simpl. rewrite not_elem_of_cons. unfold pend_index at 1. simpl. done. }
        { left. split; [done|]. by rewrite list_lookup_insert_ne. }
        { right. exists v. split; [|done]. by rewrite list_lookup_insert_ne. }
      * by apply mapM_id_None.
  - (* [getProfilesByIds] returns *)
    unfold stage_task at 1. simpl. split; [done|].
    pose proof (c_nodup C) as Hnd. simpl in Hnd. apply NoDup_cons in Hnd as [Hni Hnd].
    unfold pend_index at 1 in Hni. simpl in Hni.
    constructor; simpl.
    * apply C.
    * apply C.
    * apply C.
    * by rewrite map_app.
    * rewrite map_app. simpl. apply NoDup_app. split; [done|].
      split; [|apply NoDup_singleton].
      intros x Hx ->%list_elem_of_singleton. done.
    * intros e He.
      apply elem_of_app in He as [He| ->%list_elem_of_singleton].
      { apply (c_pend C). by right. }
      { apply (c_pend C (i, r, false)). left. }
    * intros j Hj Hnj. apply (c_rest C j Hj).
      rewrite map_app, not_elem_of_app in Hnj. destruct Hnj as [Hnj Hji].
      simpl in *. rewrite not_elem_of_cons. split; [|done].
      rewrite list_elem_of_singleton in Hji. done.
    * apply C.
Qed.

Lemma ready_tick results w :
  ready results w → committed results (step w Tick).
Proof.
  intros (Ha & Hq & Hm). simpl. rewrite Hq. simpl.
  split; [done|]. split; [done|]. simpl. by rewrite Hm.
Qed.

Lemma committed_tick results w : committed results w → step w Tick = w.
Proof. intros (_ & Hq & _). simpl. by rewrite Hq. Qed.

Lemma answered_settle results w i r :
  answered results w → i < length f → settle (fetch i) r w = w.
Proof.
  intros [_ Ha] Hi. destruct (Ha i Hi) as (v & _ & Hin & _).
  unfold settle. by rewrite Hin.
Qed.

Lemma batch_state_step w e :
  batch_state w → batch_event e → batch_state (step w e).
Proof.
  intros [pend vs C|results R|results R] [->|(i & r & Hi & ->)].
  - destruct (collecting_tick _ _ _ C) as [_ H].
    destruct pend as [|[[i r] [|]] pend'].
    + rewrite H. by eapply bs_collecting.
    + destruct H as [H|(_ & results & H)].
      * by eapply bs_collecting.
      * by eapply bs_ready.
    + by eapply bs_collecting.
  - destruct (collecting_settle _ _ _ i r C Hi) as [[_ H]|H].
    + simpl. rewrite H. by eapply bs_collecting.
    + by eapply bs_collecting.
  - eapply bs_committed. by apply ready_tick.
  - simpl. rewrite (answered_settle results) by (done || apply R). by eapply bs_ready.
  - rewrite (committed_tick results) by done. by eapply bs_committed.
  - simpl. rewrite (answered_settle results) by (done || apply R). by eapply bs_committed.
Qed.

Lemma batch_state_run es : ∀ w,
  batch_state w → Forall batch_event es → batch_state (run w es).
Proof.
  induction es as [|e es IH]; intros w Hw Hes; [done|].
  apply Forall_cons in Hes as [He Hes]. simpl. apply IH; [|done].
  by apply batch_state_step.
Qed.

(** While a fetch of the batch is unanswered the map is the one the call
    found; afterwards it is that map or the committed one, never anything
    in between. *)
Lemma batch_state_map w :
  batch_state w →
  (¬ all_answered w → groupedCollabs w = m0) ∧
  (groupedCollabs w = m0 ∨ ∃ results, committed results w).
Proof.
  intros [pend vs C|results R|results R].
  - split; [intros _|left]; apply C.
  - split; [intros _|left]; apply R.
  - split; [|right; eauto].
    intros Hn. exfalso. apply Hn. intros i Hi.
    destruct R as [[_ Ha] _]. destruct (Ha i Hi) as (v & _ & Hin & _). done.
Qed.

Lemma committed_ticks results w k :
  committed results w → run w (replicate k Tick) = w.
Proof.
  intros R. induction k as [|k IH]; [done|].
  cbn [replicate run foldl]. rewrite (committed_tick results) by done. apply IH.
Qed.

Lemma weight_app pend pend' : weight (pend ++ pend') = weight pend + weight pend'.
Proof. induction pend as [|e pend IH]; simpl; [done|]. rewrite IH. lia. Qed.

(** Once every fetch is answered the batch commits: the queued returns and
    [Promise.all] elements run, then the caller is resumed. *)
Lemma collecting_ticks k : ∀ pend vs w,
  collecting pend vs w → all_answered w → weight pend + 1 ≤ k →
  ∃ results, committed results (run w (replicate k Tick)).
Proof.
  induction k as [|k IH]; intros pend vs w C Ha Hk; [lia|].
  cbn [replicate run foldl].
  destruct (collecting_tick _ _ _ C) as [Hin H].
  assert (all_answered (step w Tick)) as Ha'.
  { intros i Hi. rewrite Hin. by apply Ha. }
  destruct pend as [|[[i r] [|]] pend'].
  - exfalso. by eapply collecting_pend_nil.
  - simpl in Hk. destruct H as [H|(-> & results & H)].
    + eapply IH; [done..|]. lia.
    + exists results. destruct k as [|k]; [simpl in Hk; lia|].
      cbn [replicate run foldl].
      rewrite (committed_ticks results); by apply ready_tick.
  - simpl in Hk.
    eapply IH; [done..|]. rewrite weight_app. simpl. lia.
Qed.

Lemma weight_length pend : weight pend ≤ 2 * length pend.
Proof.
  induction pend as [|[? [|]] pend IH]; simpl in *; lia.
Qed.

Lemma weight_bound pend vs w : collecting pend vs w → weight pend ≤ 2 * length f.
Proof.
  intros C. pose proof (weight_length pend) as Hw.
  assert (length (map pend_index pend) ≤ length (seq 0 (length f))) as Hl.
  { apply submseteq_length, NoDup_submseteq; [apply C|].
    intros i (e & -> & He)%list_elem_of_fmap.
    apply elem_of_seq. destruct (c_pend C e He). lia. }
  rewrite length_map, length_seq in Hl. lia.
Qed.

Lemma batch_state_commits w :
  batch_state w → all_answered w →
  ∃ results, committed results (run w (replicate (2 * length f + 1) Tick)).
Proof.
  intros [pend vs C|results R|results R] Ha.
  - eapply collecting_ticks; [done..|].
    pose proof (weight_bound _ _ _ C). lia.
  - exists results. rewrite Nat.add_comm. cbn [Nat.add replicate run foldl].
    rewrite (committed_ticks results); by apply ready_tick.
  - exists results. by rewrite (committed_ticks results).
Qed.
End batch.

(** The call leaves the batch collecting, or ready when no item has
    collaborators. *)
Lemma getGroupedCollabs_batch_state (w0 : World) (items : list Item) :
  queue w0 = [] →
  batch_state (groupedCollabs w0) (next_id w0) (filter has_collaborators items)
    (getGroupedCollabs items w0).
Proof.
  intros Hq. unfold getGroupedCollabs.
  set (f := filter has_collaborators items).
  destruct (map_getProfilesByIds_spec f (next_id w0) 0 (set_next_id (S (next_id w0)) w0))
    as (Hn & Hl & Hi & Hg & Hq' & Hs & Hb).
  simpl in Hn, Hl, Hi, Hg, Hq', Hs, Hb.
  destruct f as [|item f'] eqn:Ef.
  - eapply bs_ready with (results := []). split; [|split].
    + split; [done|]. simpl. lia.
    + simpl. by rewrite Hq.
    + done.
  - rewrite <- Ef in *. assert (length f ≠ 0) as Hlen by (rewrite Ef; done).
    clear Ef. eapply bs_collecting with (pend := []) (vs := replicate (length f) None).
    constructor; simpl.
    + done.
    + by rewrite lookup_insert_eq.
    + by rewrite length_replicate.
    + by rewrite Hq', Hq.
    + constructor.
    + intros e He. by apply elem_of_nil in He.
    + intros i Hlt _. left. split; [|by apply lookup_replicate_2].
      destruct (lookup_lt_is_Some_2 f i Hlt) as [it Hit]. exists it. split; [done|].
      rewrite Hi. unfold fetch. rewrite decide_True by lia.
      replace (S (next_id w0) + i - S (next_id w0)) with i by lia.
      rewrite Hit. done.
    + exists 0. apply lookup_replicate_2. lia.
Qed.

Lemma getGroupedCollabs_query_log (w0 : World) (items : list Item) :
  query_log (getGroupedCollabs items w0)
  = query_log w0 ++ map collabs_query (filter has_collaborators items).
Proof.
  unfold getGroupedCollabs.
  destruct (map_getProfilesByIds_spec (filter has_collaborators items) (next_id w0) 0
              (set_next_id (S (next_id w0)) w0)) as (_ & Hl & _).
  simpl in Hl. by destruct (filter has_collaborators items).
Qed.

(** ** What the commit writes *)

Lemma forEach_store_other items : ∀ index results m k,
  k ∉ item_key <$> items → forEach_store items index results m !! k = m !! k.
Proof.
  induction items as [|item items IH]; intros index results m k Hk; simpl; [done|].
  rewrite fmap_cons, not_elem_of_cons in Hk. destruct Hk as [Hne Hk].
  rewrite IH by done. by rewrite lookup_insert_ne.
Qed.

Lemma forEach_store_dom items : ∀ index results m,
  dom (forEach_store items index results m) = dom m ∪ list_to_set (item_key <$> items).
Proof.
  induction items as [|item items IH]; intros index results m; simpl.
  - by rewrite union_empty_r_L.
  - rewrite IH, dom_insert_L.
    by rewrite (union_comm_L {[item_key item]}), union_assoc_L.
Qed.

Lemma forEach_store_last items : ∀ index results m i item,
  last_with_key items i item →
  forEach_store items index results m !! item_key item
  = Some (nullish_or (results !! (index + i)) (JArr [])).
Proof.
  induction items as [|item0 items IH]; intros index results m i item [Hi Hlast]; [done|].
  destruct i as [|i]; simpl in *.
  - injection Hi as ->. rewrite forEach_store_other.
    + by rewrite lookup_insert_eq, Nat.add_0_r.
    + intros (item' & Hk & (j & Hj)%list_elem_of_lookup)%list_elem_of_fmap.
      apply (Hlast (S j) item'); [lia|done|done].
  - rewrite (IH (S index) results _ i item).
    + by rewrite Nat.add_succ_r.
    + split; [done|]. intros j item' Hj Hl. apply (Hlast (S j) item'); [lia|done].
Qed.

(** [getProfilesByIds] never returns [null], so [?? []] keeps its value. *)
Lemma nullish_or_return r :
  nullish_or (Some (getProfilesByIds_return r)) (JArr []) = getProfilesByIds_return r.
Proof.
  unfold getProfilesByIds_return.
  destruct (truthy (error r)); simpl; [done|].
  destruct (truthy (data r)) eqn:E; simpl; [|done].
  by destruct (data r).
Qed.

Lemma answered_unique P f results1 results2 w :
  answered P f results1 w → answered P f results2 w → results1 = results2.
Proof.
  intros [Hl1 H1] [Hl2 H2]. apply list_eq. intros i.
  destruct (decide (i < length f)) as [Hi|Hi].
  - destruct (H1 i Hi) as (v1 & -> & _ & r1 & Hr1 & E1).
    destruct (H2 i Hi) as (v2 & -> & _ & r2 & Hr2 & E2). congruence.
  - rewrite !lookup_ge_None_2; [done|lia..].
Qed.

(** ** One call of [getGroupedCollabs], from the call to the commit *)

Lemma batch_run (w0 : World) (items : list Item) (es : list Event) :
  queue w0 = [] →
  Forall (batch_event (next_id w0) (filter has_collaborators items)) es →
  batch_state (groupedCollabs w0) (next_id w0) (filter has_collaborators items)
    (run (getGroupedCollabs items w0) es).
Proof.
  intros Hq Hes. apply batch_state_run; [|done].
  by apply getGroupedCollabs_batch_state.
Qed.

Lemma batch_commits (w0 : World) (items : list Item) (es : list Event) :
  let f := filter has_collaborators items in
  let P := next_id w0 in
  queue w0 = [] → Forall (batch_event P f) es →
  let w := run (getGroupedCollabs items w0) es in
  let w' := run w (replicate (2 * length f + 1) Tick) in
  all_answered P f w →
  ∃ results, committed (groupedCollabs w0) P f results w' ∧
    (groupedCollabs w = groupedCollabs w0 ∨ w' = w).
Proof.
  intros f P Hq Hes w w' Ha.
  pose proof (batch_run w0 items es Hq Hes) as Hs. fold f P w in Hs.
  destruct (batch_state_commits _ _ _ _ Hs Ha) as (results & Hc). fold w' in Hc.
  exists results. split; [done|].
  destruct (batch_state_map _ _ _ _ Hs) as [_ [Hm|(results0 & Hc0)]]; [by left|right].
  unfold w'. by rewrite (committed_ticks _ _ _ results0 w _ Hc0).
Qed.

(** The identifier a later item does not repeat decides the key alone. *)
Lemma last_with_key_id (f : list Item) (i : nat) (item : Item) :
  f !! i = Some item →
  (∀ j item', i < j → f !! j = Some item' → item_id item' ≠ item_id item) →
  last_with_key f i item.
Proof.
  intros Hi Hlast. split; [done|]. intros j item' Hj Hl Hk.
  apply (Hlast j item' Hj Hl). unfold item_key in Hk. by apply (inj pretty) in Hk.
Qed.

(** C1. For every call of [getGroupedCollabs], whatever the order in which
    the backend answers and the microtasks run: the map is not written while
    a fetch of the batch is unanswered; once all are answered the map is the
    one the call found or the committed one, and the commit happens within
    [2n+1] microtasks.  The keys of the committed map are those it had and
    the identifiers of the filtered items, as strings; every other key keeps
    its entry; and the entry under the identifier of the [i]-th filtered item
    is the [i]-th element of the results, which is what [getProfilesByIds]
    returned for the answer to the [i]-th fetch.  The assignment of the
    commit stores, for any results array, its [i]-th element, and the empty
    list where that element is missing or [null]. *)
Theorem getGroupedCollabs_commit (w0 : World) (items : list Item) (es : list Event) :
  let f := filter has_collaborators items in
  let P := next_id w0 in
  queue w0 = [] → Forall (batch_event P f) es →
  let w := run (getGroupedCollabs items w0) es in
  let w' := run w (replicate (2 * length f + 1) Tick) in
  ((∃ i, i < length f ∧ is_Some (inflight w !! fetch P i)) →
     groupedCollabs w = groupedCollabs w0) ∧
  (all_answered P f w →
     ∃ results,
       answered P f results w' ∧ queue w' = [] ∧
       groupedCollabs w' = forEach_store f 0 results (groupedCollabs w0) ∧
       (groupedCollabs w = groupedCollabs w0 ∨ groupedCollabs w = groupedCollabs w') ∧
       dom (groupedCollabs w')
       = dom (groupedCollabs w0) ∪ list_to_set ((λ item, pretty (item_id item)) <$> f) ∧
       (∀ k, k ∉ ((λ item, pretty (item_id item)) <$> f) →
          groupedCollabs w' !! k = groupedCollabs w0 !! k) ∧
       (∀ i item, f !! i = Some item →
          (∀ j item', i < j → f !! j = Some item' → item_id item' ≠ item_id item) →
          ∃ r, settled w' !! fetch P i = Some r ∧
            results !! i = Some (getProfilesByIds_return r) ∧
            groupedCollabs w' !! pretty (item_id item) = results !! i)) ∧
  (∀ (filteredItems : list Item) (results : list Json) (w1 : World) i item,
     filteredItems !! i = Some item →
     (∀ j item', i < j → filteredItems !! j = Some item' → item_id item' ≠ item_id item) →
     let m := groupedCollabs (getGroupedCollabs_resume filteredItems results w1) in
     (∀ v, results !! i = Some v → v ≠ JNull → m !! pretty (item_id item) = Some v) ∧
     (results !! i = None ∨ results !! i = Some JNull →
        m !! pretty (item_id item) = Some (JArr []))).
Proof.
  intros f P Hq Hes w w'. split; [|split].
  - intros (i & Hi & Hin).
    pose proof (batch_run w0 items es Hq Hes) as Hs.
    apply batch_state_map in Hs as [Hs _]. apply Hs.
    intros Ha. assert (inflight w !! fetch P i = None) as E by apply (Ha i Hi).
    rewrite E in Hin. by destruct Hin.
  - intros Ha.
    destruct (batch_commits w0 items es Hq Hes Ha) as (results & (Hans & Hqueue & Hmap) & Hw).
    fold f P w w' in Hans, Hqueue, Hmap, Hw.
    exists results. rewrite Hmap.
    split; [done|]. split; [done|]. split; [done|]. split.
    { destruct Hw as [Hw|Hw]; [by left|right]. by rewrite <- Hmap, Hw. }
    split; [apply forEach_store_dom|]. split.
    + intros k Hk. by apply forEach_store_other.
    + intros i item Hi Hlast.
      assert (i < length f) as Hlt by (by eapply lookup_lt_Some).
      destruct Hans as [_ Hans].
      destruct (Hans i Hlt) as (v & Hv & _ & r & Hr & Hvr).
      exists r. split; [done|]. injection Hvr as ->. split; [done|].
      change (pretty (item_id item)) with (item_key item).
      rewrite (forEach_store_last f 0 results _ i item) by (by apply last_with_key_id).
      simpl. by rewrite Hv, nullish_or_return.
  - intros fi results w1 i item Hi Hlast m. unfold m, getGroupedCollabs_resume. simpl.
    change (pretty (item_id item)) with (item_key item).
    rewrite (forEach_store_last fi 0 results _ i item) by (by apply last_with_key_id).
    simpl. split.
    + intros v -> Hv. by destruct v.
    + by intros [-> | ->].
Qed.

Lemma two_answers_events :
  Forall (batch_event (next_id init) (filter has_collaborators three_items)) two_answers.
Proof. unfold two_answers. batch_events. Defined.

Lemma two_answers_all_answered :
  all_answered (next_id init) (filter has_collaborators three_items)
    (run (getGroupedCollabs three_items init) two_answers).
Proof. intros [|[|i]] Hi; [reflexivity|reflexivity|]. vm_compute in Hi. lia. Defined.

Lemma getGroupedCollabs_commit_witness :
  let f := filter has_collaborators three_items in
  let w := run (getGroupedCollabs three_items init) two_answers in
  let w' := run w (replicate (2 * length f + 1) Tick) in
  queue init = [] ∧ Forall (batch_event (next_id init) f) two_answers ∧
  all_answered (next_id init) f w ∧
  groupedCollabs w = ∅ ∧ queue w' = [] ∧
  groupedCollabs w' !! "1" = Some (JArr []) ∧
  groupedCollabs w' !! "2" = None ∧
  groupedCollabs w' !! "3" = Some (JArr [JStr "p2"]) ∧
  dom (groupedCollabs w') = list_to_set ["1"; "3"] ∧
  groupedCollabs (getGroupedCollabs_resume f [JArr [JStr "p1"]] init) !! "1"
  = Some (JArr [JStr "p1"]) ∧
  groupedCollabs (getGroupedCollabs_resume f [JArr [JStr "p1"]] init) !! "3" = Some (JArr []).
Proof.
  intros f w w'.
  split; [reflexivity|]. split; [exact two_answers_events|].
  split; [exact two_answers_all_answered|]. split; [reflexivity|].
  destruct (getGroupedCollabs_commit init three_items two_answers eq_refl two_answers_events)
    as (_ & H & Hres).
  destruct (H two_answers_all_answered) as (results & _ & H2 & _ & _ & H5 & H6 & H7).
  split; [exact H2|].
  split.
  { destruct (H7 0 {| item_id := 1; item_collaborators := ["u1"] |} eq_refl)
      as (r & Hr & Hv & Hm).
    - intros [|[|j]] item' Hj Hl; [lia| |discriminate]. injection Hl as <-. discriminate.
    - assert (r = failed) as ->
        by (apply (inj Some); rewrite <- Hr; vm_compute; reflexivity).
      exact (eq_trans Hm Hv). }
  split.
  { apply H6. intros Hin.
    repeat (apply elem_of_cons in Hin as [Hin|Hin]; [discriminate|]).
    by apply elem_of_nil in Hin. }
  split.
  { destruct (H7 1 {| item_id := 3; item_collaborators := ["u2"; "u3"] |} eq_refl)
      as (r & Hr & Hv & Hm).
    - intros [|[|j]] item' Hj Hl; [lia|lia|discriminate].
    - assert (r = ok (JArr [JStr "p2"])) as ->
        by (apply (inj Some); rewrite <- Hr; vm_compute; reflexivity).
      exact (eq_trans Hm Hv). }
  split; [exact H5|].
  split.
  - destruct (Hres f [JArr [JStr "p1"]] init 0 {| item_id := 1; item_collaborators := ["u1"] |}
                eq_refl) as [Hv _].
    + intros [|[|j]] item' Hj Hl; [lia| |discriminate]. injection Hl as <-. discriminate.
    + apply Hv; [reflexivity|discriminate].
  - destruct (Hres f [JArr [JStr "p1"]] init 1
                {| item_id := 3; item_collaborators := ["u2"; "u3"] |} eq_refl) as [_ Hn].
    + intros [|[|j]] item' Hj Hl; [lia|lia|discriminate].
    + apply Hn. left. reflexivity.
Defined.

(** C6. The helper returns the empty list when the fetch reports an error or
    no data.  The batch commits whatever the answers are, and the entry of an
    item is computed from the answer to its own fetch alone: the empty list
    when that fetch failed, its data otherwise. *)
Theorem partial_batch_failure (w0 : World) (items : list Item) (es : list Event) :
  let f := filter has_collaborators items in
  let P := next_id w0 in
  queue w0 = [] → Forall (batch_event P f) es →
  let w := run (getGroupedCollabs items w0) es in
  let w' := run w (replicate (2 * length f + 1) Tick) in
  (∀ r, truthy (error r) = true ∨ truthy (data r) = false →
     getProfilesByIds_return r = JArr []) ∧
  (∀ batch index r q w1, truthy (error r) = true ∨ truthy (data r) = false →
     queue w1 = T_getProfilesByIds batch index r :: q →
     queue (step w1 Tick) = q ++ [T_all batch index (JArr [])]) ∧
  (all_answered P f w →
     queue w' = [] ∧
     ∀ i item r, last_with_key f i item → settled w' !! fetch P i = Some r →
       groupedCollabs w' !! item_key item
       = Some (if truthy (error r) || negb (truthy (data r)) then JArr [] else data r)).
Proof.
  intros f P Hq Hes w w'.
  assert (Hret : ∀ r, truthy (error r) = true ∨ truthy (data r) = false →
            getProfilesByIds_return r = JArr []).
  { intros r [H|H]; unfold getProfilesByIds_return; rewrite H; [done|].
    by rewrite orb_true_r. }
  split; [done|]. split.
  - intros batch index r q w1 Hr Hw1. simpl. rewrite Hw1. simpl. by rewrite Hret.
  - intros Ha.
    destruct (batch_commits w0 items es Hq Hes Ha) as (results & ([Hlen Hans] & Hqueue & Hmap) & _).
    fold f P w w' in Hlen, Hans, Hqueue, Hmap.
    split; [done|]. intros i item r Hl Hr.
    rewrite Hmap, (forEach_store_last f 0 results _ i item) by done. simpl.
    assert (i < length f) as Hi by (eapply lookup_lt_Some, Hl).
    destruct (Hans i Hi) as (v & -> & _ & r' & Hr' & Hv).
    rewrite Hr in Hr'. injection Hr' as <-. injection Hv as ->.
    by rewrite nullish_or_return.
Qed.

Lemma partial_batch_failure_witness :
  let f := filter has_collaborators three_items in
  let w := run (getGroupedCollabs three_items init) two_answers in
  let w' := run w (replicate (2 * length f + 1) Tick) in
  queue init = [] ∧ Forall (batch_event (next_id init) f) two_answers ∧
  all_answered (next_id init) f w ∧
  getProfilesByIds_return failed = JArr [] ∧
  queue w' = [] ∧
  groupedCollabs w' !! "1" = Some (JArr []) ∧
  groupedCollabs w' !! "3" = Some (JArr [JStr "p2"]).
Proof.
  split; [reflexivity|]. split; [exact two_answers_events|].
  split; [exact two_answers_all_answered|].
  destruct (partial_batch_failure init three_items two_answers eq_refl two_answers_events)
    as (H1 & _ & H3).
  split; [apply H1; left; reflexivity|].
  destruct (H3 two_answers_all_answered) as [Hq Hv]. split; [exact Hq|]. split.
  - apply (Hv 0 {| item_id := 1; item_collaborators := ["u1"] |} failed); [|reflexivity].
    split; [reflexivity|]. intros [|[|j]] item' Hj Hl; [lia| |discriminate].
    injection Hl as <-. discriminate.
  - apply (Hv 1 {| item_id := 3; item_collaborators := ["u2"; "u3"] |} (ok (JArr [JStr "p2"])));
      [|reflexivity].
    split; [reflexivity|]. intros [|[|j]] item' Hj Hl; [lia|lia|discriminate].
Defined.

(** ** Who writes the map *)

Lemma groupedCollabs_getGroupedCollabs items w :
  groupedCollabs (getGroupedCollabs items w) = groupedCollabs w.
Proof.
  unfold getGroupedCollabs.
  destruct (map_getProfilesByIds_spec (filter has_collaborators items) (next_id w) 0
              (set_next_id (S (next_id w)) w)) as (_ & _ & _ & Hg & _).
  simpl in Hg. by destruct (filter has_collaborators items).
Qed.

(** Only the resumption of [getGroupedCollabs] writes the map. *)
Lemma groupedCollabs_step (w : World) (e : Event) :
  groupedCollabs (step w e) = groupedCollabs w ∨
  ∃ filteredItems results q,
    e = Tick ∧ queue w = T_getGroupedCollabs filteredItems results :: q ∧
    groupedCollabs (step w e) = forEach_store filteredItems 0 results (groupedCollabs w).
Proof.
  destruct e; simpl.
  - left. unfold getProjects, loadProjects, useMemoize, await. simpl.
    destruct (loadProjects_cache w !! "projects"); simpl.
    + by destruct (settled w !! n).
    + by destruct (settled w !! next_id w).
  - left. unfold getProject, loadProject, useMemoize, await. simpl.
    destruct (loadProject_cache w !! slug); simpl.
    + by destruct (settled w !! n).
    + by destruct (settled w !! next_id w).
  - left. unfold updateProject. by destruct (negb _).
  - left. apply groupedCollabs_getGroupedCollabs.
  - left. unfold settle. by destruct (inflight w !! p) as [[? ?]|].
  - destruct (queue w) as [|t q] eqn:Q; [by left|].
    destruct t; simpl.
    + by left.
    + left. unfold getProjects_resume, validateCache.
      by repeat (destruct (truthy _); simpl).
    + left. unfold getProject_resume, validateCache.
      by repeat (destruct (truthy _); simpl).
    + left. unfold validateCache_then. case_decide; [done|].
      destruct (negb _ && _); by destruct ref, loaderFn.
    + by left.
    + left. unfold all_element. simpl.
      destruct (batches w !! batch) as [[? ?]|]; [|done]. by destruct (mapM _ _).
    + right. by eexists _, _, _.
    + by left.
Qed.

(** C8. One fetch is issued per item that has collaborators, in their order,
    and none for the others.  An item without collaborators whose identifier
    no fetched item shares gets no entry: what the map holds under its
    identifier stays what it was, at every moment of the batch.  When no item
    has collaborators, and so for the empty list, no fetch is issued, no
    request is in flight that was not before, and the map never changes. *)
Theorem getGroupedCollabs_skips (w0 : World) (items : list Item) (es : list Event) :
  let f := filter has_collaborators items in
  let P := next_id w0 in
  queue w0 = [] → Forall (batch_event P f) es →
  let w1 := getGroupedCollabs items w0 in
  query_log w1 = query_log w0 ++ map collabs_query f ∧
  (∀ item, item ∈ f → item ∈ items ∧ item_collaborators item ≠ []) ∧
  (∀ item, item ∈ items → item_collaborators item = [] →
     (item ∉ f) ∧
     (item_key item ∉ item_key <$> f →
      groupedCollabs (run w1 es) !! item_key item = groupedCollabs w0 !! item_key item)) ∧
  (f = [] →
     query_log w1 = query_log w0 ∧ inflight w1 = inflight w0 ∧
     groupedCollabs (run w1 es) = groupedCollabs w0).
Proof.
  intros f P Hq Hes w1.
  pose proof (batch_run w0 items es Hq Hes) as Hs. fold f P w1 in Hs.
  apply batch_state_map in Hs as [_ Hs].
  split; [apply getGroupedCollabs_query_log|]. split; [|split].
  - intros item [Hc Hin]%list_elem_of_filter. split; [done|].
    intros E. apply Hc. by rewrite E.
  - intros item Hin Hc. split.
    + intros [Hh _]%list_elem_of_filter. apply Hh. by rewrite Hc.
    + intros Hk. destruct Hs as [->|(results & _ & _ & ->)]; [done|].
      by apply forEach_store_other.
  - intros Hf. split; [|split].
    + unfold w1. rewrite getGroupedCollabs_query_log. fold f. rewrite Hf. apply app_nil_r.
    + unfold w1, getGroupedCollabs. fold f. by rewrite Hf.
    + destruct Hs as [->|(results & _ & _ & ->)]; [done|]. by rewrite Hf.
Qed.

Lemma getGroupedCollabs_skips_witness :
  let f := filter has_collaborators three_items in
  let skipped := {| item_id := 2; item_collaborators := [] |} in
  queue init = [] ∧ Forall (batch_event (next_id init) f) two_answers ∧
  query_log (getGroupedCollabs three_items init)
    = [groupedProfilesQuery ["u1"]; groupedProfilesQuery ["u2"; "u3"]] ∧
  (skipped ∉ f) ∧
  groupedCollabs (run (getGroupedCollabs three_items init) two_answers) !! "2" = None ∧
  Forall (batch_event (next_id init) (filter has_collaborators [])) [Tick; Tick] ∧
  query_log (getGroupedCollabs [] init) = [] ∧
  inflight (getGroupedCollabs [] init) = ∅ ∧
  groupedCollabs (run (getGroupedCollabs [] init) [Tick; Tick]) = ∅.
Proof.
  intros f skipped.
  assert (Forall (batch_event (next_id init) (filter has_collaborators [])) [Tick; Tick]) as He.
  { batch_events. }
  split; [reflexivity|]. split; [exact two_answers_events|].
  destruct (getGroupedCollabs_skips init three_items two_answers eq_refl two_answers_events)
    as (H1 & _ & H3 & _).
  split; [exact H1|].
  destruct (H3 skipped) as [Hs Hk].
  { right. left. }
  { reflexivity. }
  split; [exact Hs|]. split.
  { apply Hk. intros Hin. vm_compute in Hin.
    apply elem_of_cons in Hin as [Hin|Hin]; [discriminate|].
    apply elem_of_cons in Hin as [Hin|Hin]; [discriminate|].
    by apply elem_of_nil in Hin. }
  split; [exact He|].
  destruct (getGroupedCollabs_skips init [] [Tick; Tick] eq_refl He) as (_ & _ & _ & H4).
  destruct (H4 eq_refl) as (Ha & Hb & Hc).
  split; [exact Ha|]. split; [exact Hb|exact Hc].
Defined.

(** C10. A call of [getGroupedCollabs] leaves every entry whose key is not
    the identifier of one of its filtered items as it was, at every moment of
    the batch.  No event ever removes a key from the map: an event leaves the
    map as it is, or it is the resumption of a call, which assigns under the
    identifiers of its filtered items and nowhere else. *)
Theorem groupedCollabs_frame (w0 : World) (items : list Item) (es : list Event) :
  let f := filter has_collaborators items in
  let P := next_id w0 in
  queue w0 = [] → Forall (batch_event P f) es →
  (∀ k, k ∉ item_key <$> f →
     groupedCollabs (run (getGroupedCollabs items w0) es) !! k = groupedCollabs w0 !! k) ∧
  (dom (groupedCollabs w0) ⊆ dom (groupedCollabs (run (getGroupedCollabs items w0) es))) ∧
  (∀ (w : World) (e : Event),
     dom (groupedCollabs w) ⊆ dom (groupedCollabs (step w e)) ∧
     ∀ k, groupedCollabs (step w e) !! k ≠ groupedCollabs w !! k →
       ∃ filteredItems results q,
         e = Tick ∧ queue w = T_getGroupedCollabs filteredItems results :: q ∧
         k ∈ item_key <$> filteredItems) ∧
  (∀ (w : World) (more : list Event),
     dom (groupedCollabs w) ⊆ dom (groupedCollabs (run w more))).
Proof.
  intros f P Hq Hes.
  pose proof (batch_run w0 items es Hq Hes) as Hs. fold f P in Hs.
  apply batch_state_map in Hs as [_ Hs].
  assert (Hstep : ∀ w e, dom (groupedCollabs w) ⊆ dom (groupedCollabs (step w e))).
  { intros w e. destruct (groupedCollabs_step w e) as [->|(fi & results & q & _ & _ & ->)]; [done|].
    rewrite forEach_store_dom. apply union_subseteq_l. }
  split; [|split; [|split]].
  - intros k Hk. destruct Hs as [->|(results & _ & _ & ->)]; [done|].
    by apply forEach_store_other.
  - destruct Hs as [->|(results & _ & _ & ->)]; [done|].
    rewrite forEach_store_dom. apply union_subseteq_l.
  - intros w e. split; [apply Hstep|].
    intros k Hk.
    destruct (groupedCollabs_step w e) as [E|(fi & results & q & -> & Hqw & E)].
    { by rewrite E in Hk. }
    exists fi, results, q. split; [done|]. split; [done|].
    destruct (decide (k ∈ item_key <$> fi)) as [|Hn]; [done|].
    exfalso. apply Hk. rewrite E. by apply forEach_store_other.
  - intros w more. revert w. induction more as [|e more IH]; intros w; [done|].
    simpl. etrans; [apply Hstep|apply IH].
Qed.

Lemma later_answers_events :
  Forall (batch_event (next_id grouped) (filter has_collaborators later_items)) later_answers.
Proof.
  unfold later_answers.
  repeat first
    [ constructor 1
    | constructor 2;
      [ first [ left; reflexivity
              | right; eexists 0, _; split; [vm_compute; lia|vm_compute; reflexivity]
              | right; eexists 1, _; split; [vm_compute; lia|vm_compute; reflexivity] ] | ] ].
Defined.

Lemma groupedCollabs_frame_witness :
  let f := filter has_collaborators later_items in
  let w := run (getGroupedCollabs later_items grouped) later_answers in
  queue grouped = [] ∧ Forall (batch_event (next_id grouped) f) later_answers ∧
  groupedCollabs grouped !! "1" = Some (JArr []) ∧
  groupedCollabs grouped !! "3" = Some (JArr [JStr "p2"]) ∧
  queue w = [] ∧
  groupedCollabs w !! "1" = Some (JArr [JStr "p7"]) ∧
  groupedCollabs w !! "3" = Some (JArr [JStr "p2"]) ∧
  groupedCollabs w !! "4" = Some (JArr [JStr "p8"]) ∧
  dom (groupedCollabs grouped) ⊆ dom (groupedCollabs w).
Proof.
  intros f w.
  assert (queue grouped = []) as Hq by (vm_compute; reflexivity).
  assert (groupedCollabs grouped !! "3" = Some (JArr [JStr "p2"])) as H3
    by (vm_compute; reflexivity).
  destruct (groupedCollabs_frame grouped later_items later_answers Hq later_answers_events)
    as (H1 & H2 & _).
  split; [exact Hq|]. split; [exact later_answers_events|].
  split; [vm_compute; reflexivity|]. split; [exact H3|].
  split; [vm_compute; reflexivity|]. split; [vm_compute; reflexivity|].
  split.
  { refine (eq_trans (H1 "3" _) H3). intros Hin.
    repeat (apply elem_of_cons in Hin as [Hin|Hin]; [discriminate|]).
    by apply elem_of_nil in Hin. }
  split; [vm_compute; reflexivity|exact H2].
Defined.
